(** * IoU k-means for anchor boxes: a shallow embedding of
      [k_means_anchor_size.ipynb] (functions [iou], [avg_iou], [kmeans],
      [translate_boxes], [load_dataset], [compute_anchor_para]).

    Numbers.  The notebook computes on numpy arrays of reals; the data model
    of the specification takes widths and heights to be positive real
    numbers.  The embedding uses exact rationals [Q]: comparison of two
    numbers ([==] in Python) is [Qeq], and results are stated up to [Qeq].
    Where numpy leaves the rationals (a division by zero giving inf or nan,
    the median or mean of an empty slice giving nan, each with a warning and
    no exception) the embedding stops with the outcome [NonFinite].
    Arrays are arrays of reals (float dtype): a median stored into
    [clusters] is stored as it is.  A positive-area box of the
    specification is a box of its data model, [valid_box]: width and height
    both positive.

    Arrays.  An array of shape (r, 2) is a [list Box]; a one-dimensional
    array is a list.  Vectorised numpy expressions are written with [map]
    and [map2], one definition per line of the source.

    Randomness.  [np.random.choice(rows, k, replace=False)] draws [k]
    distinct indices below [rows]; the drawn indices are an explicit argument
    [drawn] of [kmeans], constrained by [sample_ok] in the theorems.

    Loop.  [while True] is run with fuel; a run records the events of the
    loop (iteration entered, assignment computed, centroids updated). *)

From Stdlib Require Import QArith Qminmax Lqa ZArith Lia List String Bool Arith.
From Stdlib Require Import Qabs Permutation.
Import ListNotations.
Open Scope Q_scope.

(** ** Exceptions and results *)

Inductive exn : Type :=
| ValueError (msg : string)
| IndexError (msg : string).

Inductive result (A : Type) : Type :=
| Ok (a : A)
| Raise (e : exn)
| NonFinite.

Arguments Ok {A} a.
Arguments Raise {A} e.
Arguments NonFinite {A}.

Definition bind {A B : Type} (c : result A) (f : A -> result B) : result B :=
  match c with
  | Ok a => f a
  | Raise e => Raise e
  | NonFinite => NonFinite
  end.

Notation "x <- c ;; k" := (bind c (fun x => k))
  (at level 61, c at next level, right associativity).

Fixpoint mapM {A B : Type} (f : A -> result B) (l : list A) : result (list B) :=
  match l with
  | [] => Ok []
  | a :: t => b <- f a ;; bs <- mapM f t ;; Ok (b :: bs)
  end.

(** ** Boxes and numpy primitives *)

Record Box : Type := mkBox { width : Q; height : Q }.

(** A box of the data model: both sides positive. *)
Definition valid_box (b : Box) : Prop := 0 < width b /\ 0 < height b.

Definition box_eq (a b : Box) : Prop :=
  width a == width b /\ height a == height b.

Definition Qltb (a b : Q) : bool := negb (Qle_bool b a).

Fixpoint map2 {A B C : Type} (f : A -> B -> C) (l1 : list A) (l2 : list B)
  : list C :=
  match l1, l2 with
  | a :: t1, b :: t2 => f a b :: map2 f t1 t2
  | _, _ => []
  end.

(** [np.count_nonzero] of a boolean array. *)
Definition count_nonzero (m : list bool) : nat :=
  List.length (filter (fun b => b) m).

(** Elementwise [/] of two arrays of the same shape. *)
Fixpoint np_divide (a b : list Q) : result (list Q) :=
  match a, b with
  | x :: ta, y :: tb =>
      if Qeq_bool y 0 then NonFinite
      else t <- np_divide ta tb ;; Ok (x / y :: t)
  | _, _ => Ok []
  end.

Definition no_area : exn := ValueError "Box has no area".

(** ** [iou(box, clusters)] *)

Definition iou (box : Box) (clusters : list Box) : result (list Q) :=
  let x := map (fun c => Qmin (width c) (width box)) clusters in
  let y := map (fun c => Qmin (height c) (height box)) clusters in
  if ((0 <? count_nonzero (map (fun v => Qeq_bool v 0) x))%nat
      || (0 <? count_nonzero (map (fun v => Qeq_bool v 0) y))%nat)%bool
  then Raise no_area
  else
    let intersection := map2 Qmult x y in
    let box_area := width box * height box in
    let cluster_area := map (fun c => width c * height c) clusters in
    np_divide intersection
      (map2 Qminus (map (Qplus box_area) cluster_area) intersection).

(** ** [avg_iou(boxes, clusters)] *)

Definition np_max (l : list Q) : result Q :=
  match l with
  | [] => Raise (ValueError "zero-size array to reduction operation maximum which has no identity")
  | x :: t => Ok (fold_left (fun m v => if Qltb m v then v else m) t x)
  end.

Definition np_sum (l : list Q) : Q := fold_left Qplus l 0.

Definition np_mean (l : list Q) : result Q :=
  match l with
  | [] => NonFinite
  | _ => Ok (np_sum l / inject_Z (Z.of_nat (List.length l)))
  end.

Definition avg_iou (boxes clusters : list Box) : result Q :=
  bests <- mapM (fun b => v <- iou b clusters ;; np_max v) boxes ;;
  np_mean bests.

(** ** [kmeans(boxes, k, dist=np.median)] *)

(** Insertion sort, used by the median. *)
Fixpoint insert_sorted (x : Q) (l : list Q) : list Q :=
  match l with
  | [] => [x]
  | y :: t => if Qle_bool x y then x :: l else y :: insert_sorted x t
  end.

Definition np_sort (l : list Q) : list Q := fold_right insert_sorted [] l.

(** [np.median] of a one-dimensional array; nan on an empty one. *)
Definition np_median (l : list Q) : result Q :=
  match l with
  | [] => NonFinite
  | _ =>
      let s := np_sort l in
      let n := List.length l in
      if Nat.even n
      then Ok ((nth (n / 2 - 1) s 0 + nth (n / 2) s 0) / 2)
      else Ok (nth (n / 2) s 0)
  end.

(** [np.median(rows, axis=0)] on an array of shape (m, 2): the default
    [dist]. *)
Definition np_median_axis0 (rows : list Box) : result Box :=
  w <- np_median (map width rows) ;;
  h <- np_median (map height rows) ;;
  Ok (mkBox w h).

(** [np.argmin] of a non-empty one-dimensional array: the first index of the
    minimum. *)
Fixpoint argmin_from (best : Q) (besti i : nat) (l : list Q) : nat :=
  match l with
  | [] => besti
  | x :: t =>
      if Qltb x best then argmin_from x i (S i) t
      else argmin_from best besti (S i) t
  end.

Definition argmin (l : list Q) : nat :=
  match l with
  | [] => 0%nat
  | x :: t => argmin_from x 0 1 t
  end.

(** [np.argmin(distances, axis=1)] on shape (rows, k): an error when the
    reduced axis is empty. *)
Definition np_argmin_axis1 (k : nat) (distances : list (list Q))
  : result (list nat) :=
  if (k =? 0)%nat
  then Raise (ValueError "attempt to get argmin of an empty sequence")
  else Ok (map argmin distances).

(** [np.random.choice(a, size, replace=False)] for an integer [a]; [drawn]
    is what the generator produced.  An empty population is an error unless
    no sample is taken; a sample larger than the population is an error. *)
Definition np_random_choice (a size : nat) (drawn : list nat)
  : result (list nat) :=
  if ((a =? 0)%nat && negb (size =? 0)%nat)%bool
  then Raise (ValueError "a must be greater than 0 unless no samples are taken")
  else if (a <? size)%nat
  then Raise (ValueError "Cannot take a larger sample than population when 'replace=False'")
  else Ok drawn.

(** What the generator may produce: [size] distinct indices below [a]. *)
Definition sample_ok (a size : nat) (drawn : list nat) : Prop :=
  List.length drawn = size /\ NoDup drawn /\ Forall (fun i => (i < a)%nat) drawn.

(** [boxes[idx]] with an integer index array: a fresh array. *)
Definition take (boxes : list Box) (idx : list nat) : result (list Box) :=
  mapM (fun i => match nth_error boxes i with
                 | Some b => Ok b
                 | None => Raise (IndexError "index out of bounds")
                 end) idx.

(** [boxes[mask]] with a boolean mask. *)
Fixpoint select (boxes : list Box) (mask : list bool) : list Box :=
  match boxes, mask with
  | b :: tb, m :: tm => if m then b :: select tb tm else select tb tm
  | _, _ => []
  end.

(** [clusters[i] = b]. *)
Fixpoint set_row (clusters : list Box) (i : nat) (b : Box) : list Box :=
  match clusters, i with
  | [], _ => []
  | _ :: t, O => b :: t
  | c :: t, S j => c :: set_row t j b
  end.

(** [(last_clusters == nearest_clusters).all()] on two arrays of the same
    shape. *)
Definition all_equal (last_clusters nearest_clusters : list nat) : bool :=
  forallb (fun p => (fst p =? snd p)%nat) (combine last_clusters nearest_clusters).

(** The assignment step: lines [for row in range(rows): distances[row] = 1 -
    iou(boxes[row], clusters)] and [np.argmin(distances, axis=1)]. *)
Definition distances_of (boxes clusters : list Box) : result (list (list Q)) :=
  mapM (fun b => v <- iou b clusters ;; Ok (map (fun q => 1 - q) v)) boxes.

Definition assign (boxes : list Box) (k : nat) (clusters : list Box)
  : result (list nat) :=
  distances <- distances_of boxes clusters ;;
  np_argmin_axis1 k distances.

(** The update step: [for cluster in range(k): clusters[cluster] =
    dist(boxes[nearest_clusters == cluster], axis=0)]. *)
Fixpoint update (dist : list Box -> result Box) (boxes : list Box)
  (nearest_clusters : list nat) (todo : list nat) (clusters : list Box)
  : result (list Box) :=
  match todo with
  | [] => Ok clusters
  | cluster :: rest =>
      b <- dist (select boxes (map (Nat.eqb cluster) nearest_clusters)) ;;
      update dist boxes nearest_clusters rest (set_row clusters cluster b)
  end.

(** Events of a run, in the order they happen. *)
Inductive event : Type :=
| EvIter
| EvAssign (nearest_clusters : list nat)
| EvUpdate (clusters : list Box).

(** A run: its events, and how it ended ([None]: still in the loop when the
    fuel ran out). *)
Record run : Type := mkRun {
  trace : list event;
  outcome : option (result (list Box))
}.

Definition halt (r : result (list Box)) : run := mkRun [] (Some r).

Definition emit (e : event) (r : run) : run :=
  mkRun (e :: trace r) (outcome r).

Definition lift {A : Type} (c : result A) (k : A -> run) : run :=
  match c with
  | Ok a => k a
  | Raise e => halt (Raise e)
  | NonFinite => halt NonFinite
  end.

Fixpoint kmeans_loop (fuel : nat) (boxes : list Box) (k : nat)
  (dist : list Box -> result Box) (clusters : list Box)
  (last_clusters : list nat) : run :=
  match fuel with
  | O => mkRun [] None
  | S fuel' =>
      emit EvIter
        (lift (assign boxes k clusters) (fun nearest_clusters =>
           emit (EvAssign nearest_clusters)
             (if all_equal last_clusters nearest_clusters
              then halt (Ok clusters)
              else
                lift (update dist boxes nearest_clusters (seq 0 k) clusters)
                  (fun clusters' =>
                     emit (EvUpdate clusters')
                       (kmeans_loop fuel' boxes k dist clusters'
                          nearest_clusters)))))
  end.

Definition kmeans (fuel : nat) (boxes : list Box) (k : Z)
  (dist : list Box -> result Box) (drawn : list nat) : run :=
  let rows := List.length boxes in
  if (k <? 0)%Z
  then halt (Raise (ValueError "negative dimensions are not allowed"))
  else
    let last_clusters := repeat 0%nat rows in
    lift (idx <- np_random_choice rows (Z.to_nat k) drawn ;; take boxes idx)
      (fun clusters =>
         kmeans_loop fuel boxes (Z.to_nat k) dist clusters last_clusters).

(** ** Running the model on the scenarios of the specification *)

(** A box with integer sides. *)
Definition box (w h : Z) : Box := mkBox (inject_Z w) (inject_Z h).

Definition scenario : list Box :=
  [box 100 100; box 100 100; box 10 10; box 10 10].

(** ** Vocabulary of the properties *)

(** Intersection and union area of box [b] and reference [c], as [iou]
    computes them. *)
Definition inter (b c : Box) : Q :=
  Qmin (width c) (width b) * Qmin (height c) (height b).

Definition union (b c : Box) : Q :=
  width b * height b + width c * height c - inter b c.

(** The formula in the words of the specification. *)
Definition iou_formula (B r : Box) : Q :=
  (Qmin (width B) (width r) * Qmin (height B) (height r))
  / (width B * height B + width r * height r
     - Qmin (width B) (width r) * Qmin (height B) (height r)).

(** The raising condition of [iou], per reference. *)
Definition degenerate (b c : Box) : bool :=
  Qeq_bool (Qmin (width c) (width b)) 0
  || Qeq_bool (Qmin (height c) (height b)) 0.

(** The assignments computed during a run, in order. *)
Fixpoint assignments (tr : list event) : list (list nat) :=
  match tr with
  | [] => []
  | EvAssign a :: t => a :: assignments t
  | _ :: t => assignments t
  end.

(** The centroid array after the events [tr], starting from [cs]. *)
Fixpoint current (cs : list Box) (tr : list event) : list Box :=
  match tr with
  | [] => cs
  | EvUpdate c :: t => current c t
  | _ :: t => current cs t
  end.

(** Number of update steps in a trace. *)
Fixpoint updates (tr : list event) : nat :=
  match tr with
  | [] => 0%nat
  | EvUpdate _ :: t => S (updates t)
  | _ :: t => updates t
  end.

(** [l] is a sequence of assignments whose last element is the first one
    equal to its predecessor, [prev] preceding the first. *)
Fixpoint stops_at_first_repeat (prev : list nat) (l : list (list nat)) : Prop :=
  match l with
  | [] => False
  | a :: rest =>
      match rest with
      | [] => a = prev
      | _ :: _ => a <> prev /\ stops_at_first_repeat a rest
      end
  end.

(** No element of [l] equals its predecessor. *)
Fixpoint no_repeat (prev : list nat) (l : list (list nat)) : Prop :=
  match l with
  | [] => True
  | a :: rest => a <> prev /\ no_repeat a rest
  end.

(** The events [tr] are those of the loop started on centroids [cs] with
    previous assignment [prev]: each assignment recorded is the assignment
    step on the centroids current at that point, each update recorded is
    the update step on the assignment just computed. *)
Fixpoint faithful (boxes : list Box) (k : nat) (dist : list Box -> result Box)
  (cs : list Box) (prev : list nat) (tr : list event) : Prop :=
  match tr with
  | [] => True
  | EvIter :: t => faithful boxes k dist cs prev t
  | EvAssign a :: t =>
      assign boxes k cs = Ok a /\ faithful boxes k dist cs a t
  | EvUpdate c :: t =>
      update dist boxes prev (seq 0 k) cs = Ok c
      /\ faithful boxes k dist c prev t
  end.

(** The run failed before the loop was entered. *)
Definition fails_before_loop (r : run) : Prop :=
  exists e, r = halt (Raise e).

(** The error of [np.argmin] on an empty axis. *)
Definition empty_argmin : exn :=
  ValueError "attempt to get argmin of an empty sequence".

(** No two boxes of the dataset are equal. *)
Definition pairwise_distinct (boxes : list Box) : Prop :=
  ForallOrdPairs (fun a b => ~ box_eq a b) boxes.

(** The row of [distances] of box [b]. *)
Definition distance_row (clusters : list Box) (b : Box) : list Q :=
  map (fun q => 1 - q) (map (fun c => inter b c / union b c) clusters).

(** The centroids the specification expects: (100,100) and (10,10), in
    some order. *)
Definition expected_centroids (cs : list Box) : Prop :=
  exists a b,
    cs = [a; b]
    /\ ((box_eq a (box 100 100) /\ box_eq b (box 10 10))
        \/ (box_eq a (box 10 10) /\ box_eq b (box 100 100))).

(** ** Vocabulary of the further properties *)

(** The box [b] with both sides multiplied by [s]. *)
Definition scale (s : Q) (b : Box) : Box :=
  mkBox (s * width b) (s * height b).

(** Two results of [iou] agree: the same error, or both non-finite, or the
    same values. *)
Definition same_scores (r1 r2 : result (list Q)) : Prop :=
  match r1, r2 with
  | Ok v1, Ok v2 => Forall2 Qeq v1 v2
  | Raise e1, Raise e2 => e1 = e2
  | NonFinite, NonFinite => True
  | _, _ => False
  end.

(** The best score of box [b] over the references [cs], as [avg_iou]
    computes it with [np.max]. *)
Definition best (b : Box) (cs : list Box) : Q :=
  match map (fun c => inter b c / union b c) cs with
  | [] => 0
  | x :: t => fold_left (fun m v => if Qltb m v then v else m) t x
  end.

(** Box [b] has its width in [Pw] and its height in [Ph]. *)
Definition within (Pw Ph : Q -> Prop) (b : Box) : Prop :=
  Pw (width b) /\ Ph (height b).

(** The centroids [cs'] are the centroids [cs] multiplied by [s]. *)
Definition scaled (s : Q) (cs' cs : list Box) : Prop :=
  Forall2 (fun c' c => box_eq c' (scale s c)) cs' cs.

(** Two runs that compute the same assignments and end the same way, the
    centroids of the first being those of the second multiplied by [s]. *)
Definition same_run (s : Q) (r' r : run) : Prop :=
  assignments (trace r') = assignments (trace r)
  /\ match outcome r', outcome r with
     | Some (Ok cs'), Some (Ok cs) => scaled s cs' cs
     | Some (Raise e'), Some (Raise e) => e' = e
     | Some NonFinite, Some NonFinite => True
     | None, None => True
     | _, _ => False
     end.

(** ** [translate_boxes(boxes)] *)

(** A row of an array of shape (r, 4): two corners of a box. *)
Record Row4 : Type := mkRow4 { col0 : Q; col1 : Q; col2 : Q; col3 : Q }.

(** [row[2] = v] and [row[3] = v]. *)
Definition set_col2 (row : Row4) (v : Q) : Row4 :=
  mkRow4 (col0 row) (col1 row) v (col3 row).

Definition set_col3 (row : Row4) (v : Q) : Row4 :=
  mkRow4 (col0 row) (col1 row) (col2 row) v.

(** The body of the loop, on one row of the copy. *)
Definition translate_row (row : Row4) : Row4 :=
  let row := set_col2 row (Qabs (col2 row - col0 row)) in
  set_col3 row (Qabs (col3 row - col1 row)).

(** [np.delete(row, [0, 1])]: the last two columns. *)
Definition delete_01 (row : Row4) : Box := mkBox (col2 row) (col3 row).

Definition translate_boxes (boxes : list Row4) : list Box :=
  let new_boxes := map translate_row boxes in
  map delete_01 new_boxes.

(** ** [load_dataset(path, show_img, category_id)]

    Reading is left to the caller: [files] is what [glob], [ET.parse] and
    [int(obj.findtext(...))] deliver when every file parses and its image
    can be read, one list of objects per annotation file, each object with
    its four integer coordinates (Python integers, unbounded).  Printing,
    drawing and display are left out; the rows appended to [dataset] are
    kept, in order. *)

Record object : Type := mkObject { x0 : Z; y0 : Z; x1 : Z; y1 : Z }.

Definition gt_small : Z := 32 * 32.
Definition gt_mid : Z := 96 * 96.

(** One pass of the loop over the objects of a file. *)
Definition load_object (category_id : string) (dataset : list (Z * Z))
  (obj : object) : list (Z * Z) :=
  let xmin := x0 obj in
  let ymin := y0 obj in
  let xmax := x1 obj in
  let ymax := y1 obj in
  if String.eqb category_id "s" then
    if ((0 <? (xmax - xmin) * (ymax - ymin))
        && ((xmax - xmin) * (ymax - ymin) <=? gt_small))%Z
    then dataset ++ [((xmax - xmin)%Z, (ymax - ymin)%Z)]
    else dataset
  else if String.eqb category_id "l" then
    if (gt_mid <? (xmax - xmin) * (ymax - ymin))%Z
    then dataset ++ [((xmax - xmin)%Z, (ymax - ymin)%Z)]
    else dataset
  else if String.eqb category_id "m" then
    if ((gt_small <? (xmax - xmin) * (ymax - ymin))
        && ((xmax - xmin) * (ymax - ymin) <=? gt_mid))%Z
    then dataset ++ [((xmax - xmin)%Z, (ymax - ymin)%Z)]
    else dataset
  else dataset ++ [((xmax - xmin)%Z, (ymax - ymin)%Z)].

Definition load_dataset (files : list (list object)) (category_id : string)
  : list (Z * Z) :=
  fold_left
    (fun dataset objs => fold_left (load_object category_id) objs dataset)
    files [].

(** A row of the loaded dataset as a box. *)
Definition row_box (r : Z * Z) : Box := box (fst r) (snd r).

(** ** [compute_anchor_para(bboxs, anchor_base_scale, anchor_stride)]

    The loop runs over the global name [bbox], not over the parameter
    [bboxs]: [g_bbox] is what that global is bound to, [None] when it is
    not bound.  Its rows are rows of a numpy array of reals. *)

Inductive anchor_result : Type :=
| NameError (name : string)
| Anchors (return_scale : list Q) (return_ratio : list (Q * Q))
| AnchorsNonFinite.

Fixpoint anchor_loop (base_factor : Q) (rows : list (Q * Q))
  (return_scale : list Q) (return_ratio : list (Q * Q)) : anchor_result :=
  match rows with
  | [] => Anchors return_scale return_ratio
  | (height, width) :: rest =>
      if Qeq_bool base_factor 0 || Qeq_bool height 0 then AnchorsNonFinite
      else anchor_loop base_factor rest
             (return_scale ++ [height * 1 / base_factor])
             (return_ratio ++ [(1, width * 1 / height)])
  end.

Definition compute_anchor_para (g_bbox : option (list (Q * Q)))
  (bboxs : list (Q * Q)) (anchor_base_scale anchor_stride : Q)
  : anchor_result :=
  let base_factor := anchor_base_scale * anchor_stride in
  match g_bbox with
  | None => NameError "bbox"
  | Some bbox => anchor_loop base_factor bbox [] []
  end.

(** ** Vocabulary for these functions *)

(** The two corners of the row are on one vertical or one horizontal
    line. *)
Definition flat (row : Row4) : Prop :=
  col0 row == col2 row \/ col1 row == col3 row.

(** The row moved by [(dx, dy)]. *)
Definition shift (dx dy : Q) (row : Row4) : Row4 :=
  mkRow4 (col0 row + dx) (col1 row + dy) (col2 row + dx) (col3 row + dy).

(** The row with its two corners exchanged. *)
Definition swap_corners (row : Row4) : Row4 :=
  mkRow4 (col2 row) (col3 row) (col0 row) (col1 row).

(** The area the loader computes for an object, and the row it appends. *)
Definition area (obj : object) : Z :=
  ((x1 obj - x0 obj) * (y1 obj - y0 obj))%Z.

Definition extent (obj : object) : Z * Z :=
  ((x1 obj - x0 obj)%Z, (y1 obj - y0 obj)%Z).

(** Whether the loader keeps an object under [category_id]. *)
Definition kept (category_id : string) (obj : object) : bool :=
  if String.eqb category_id "s"
  then ((0 <? area obj) && (area obj <=? gt_small))%Z
  else if String.eqb category_id "l" then (gt_mid <? area obj)%Z
  else if String.eqb category_id "m"
  then ((gt_small <? area obj) && (area obj <=? gt_mid))%Z
  else true.

(** The corners of the object are in order. *)
Definition ordered (obj : object) : Prop :=
  (x0 obj <= x1 obj)%Z /\ (y0 obj <= y1 obj)%Z.

(** * Properties *)

(** ** Arithmetic of one box against one reference *)

Lemma count_nonzero_pos (m : list bool) :
  (0 <? count_nonzero m)%nat = existsb (fun b => b) m.
Proof.
  unfold count_nonzero.
  induction m as [|b m IH]; simpl; [reflexivity|].
  destruct b; simpl; [reflexivity | exact IH].
Qed.

Lemma existsb_map {A B : Type} (f : B -> bool) (g : A -> B) (l : list A) :
  existsb f (map g l) = existsb (fun a => f (g a)) l.
Proof.
  induction l as [|a l IH]; simpl; [reflexivity | now rewrite IH].
Qed.

Lemma existsb_orb {A : Type} (f g : A -> bool) (l : list A) :
  (existsb f l || existsb g l)%bool = existsb (fun a => f a || g a)%bool l.
Proof.
  induction l as [|a l IH]; simpl; [reflexivity|].
  rewrite <- IH.
  destruct (f a), (g a), (existsb f l), (existsb g l); reflexivity.
Qed.

Lemma map2_map {A B C D : Type} (f : B -> C -> D) (g : A -> B) (h : A -> C)
  (l : list A) :
  map2 f (map g l) (map h l) = map (fun a => f (g a) (h a)) l.
Proof.
  induction l as [|a l IH]; simpl; [reflexivity | now rewrite IH].
Qed.

(** [iou] read reference by reference. *)
Lemma iou_pointwise (b : Box) (clusters : list Box) :
  iou b clusters =
  if existsb (degenerate b) clusters then Raise no_area
  else np_divide (map (inter b) clusters) (map (union b) clusters).
Proof.
  unfold iou.
  rewrite !count_nonzero_pos, !existsb_map, existsb_orb.
  fold (degenerate b).
  destruct (existsb (degenerate b) clusters); [reflexivity|].
  rewrite map_map, !map2_map. reflexivity.
Qed.

Lemma np_divide_map {A : Type} (f g : A -> Q) (l : list A) :
  Forall (fun a => ~ g a == 0) l ->
  np_divide (map f l) (map g l) = Ok (map (fun a => f a / g a) l).
Proof.
  induction 1 as [|a l Ha _ IH]; simpl; [reflexivity|].
  destruct (Qeq_bool (g a) 0) eqn:E.
  - apply Qeq_bool_eq in E. contradiction.
  - rewrite IH. reflexivity.
Qed.

Section OnePair.
Variables b c : Box.
Hypothesis Hb : valid_box b.
Hypothesis Hc : valid_box c.

Lemma min_w_pos : 0 < Qmin (width c) (width b).
Proof. destruct Hb, Hc. apply Q.min_glb_lt; assumption. Qed.

Lemma min_h_pos : 0 < Qmin (height c) (height b).
Proof. destruct Hb, Hc. apply Q.min_glb_lt; assumption. Qed.

Lemma inter_pos : 0 < inter b c.
Proof.
  unfold inter. pose proof min_w_pos. pose proof min_h_pos. nra.
Qed.

Lemma inter_le_box : inter b c <= width b * height b.
Proof.
  unfold inter. pose proof min_w_pos. pose proof min_h_pos.
  pose proof (Q.le_min_r (width c) (width b)).
  pose proof (Q.le_min_r (height c) (height b)).
  destruct Hb. nra.
Qed.

Lemma inter_le_ref : inter b c <= width c * height c.
Proof.
  unfold inter. pose proof min_w_pos. pose proof min_h_pos.
  pose proof (Q.le_min_l (width c) (width b)).
  pose proof (Q.le_min_l (height c) (height b)).
  destruct Hc. nra.
Qed.

Lemma union_ge_inter : inter b c <= union b c.
Proof.
  unfold union. pose proof inter_le_box. pose proof inter_le_ref.
  pose proof inter_pos. lra.
Qed.

Lemma union_pos : 0 < union b c.
Proof. pose proof union_ge_inter. pose proof inter_pos. lra. Qed.

Lemma not_degenerate : degenerate b c = false.
Proof.
  unfold degenerate.
  pose proof min_w_pos as Hw. pose proof min_h_pos as Hh.
  apply orb_false_iff; split.
  - destruct (Qeq_bool _ 0) eqn:E; [|reflexivity].
    apply Qeq_bool_eq in E. rewrite E in Hw. discriminate Hw.
  - destruct (Qeq_bool _ 0) eqn:E; [|reflexivity].
    apply Qeq_bool_eq in E. rewrite E in Hh. discriminate Hh.
Qed.
End OnePair.

Lemma inter_formula (b c : Box) :
  inter b c / union b c == iou_formula b c.
Proof.
  unfold iou_formula, union, inter.
  rewrite (Q.min_comm (width c) (width b)), (Q.min_comm (height c) (height b)).
  reflexivity.
Qed.

(** On boxes of the data model [iou] returns the pointwise quotient. *)
Lemma iou_valid (b : Box) (clusters : list Box) :
  valid_box b -> Forall valid_box clusters ->
  iou b clusters = Ok (map (fun c => inter b c / union b c) clusters).
Proof.
  intros Hb Hcs. rewrite iou_pointwise.
  assert (E : existsb (degenerate b) clusters = false).
  { induction Hcs as [|c l Hc _ IH]; simpl; [reflexivity|].
    rewrite (not_degenerate b c Hb Hc). exact IH. }
  rewrite E. apply np_divide_map.
  eapply Forall_impl; [|exact Hcs].
  intros c Hc E0. pose proof (union_pos b c Hb Hc) as P.
  rewrite E0 in P. discriminate P.
Qed.



(** ** When [iou] raises *)

Lemma np_divide_no_raise (a b : list Q) (e : exn) : np_divide a b <> Raise e.
Proof.
  revert b. induction a as [|x a IH]; intros [|y b]; simpl; try discriminate.
  destruct (Qeq_bool y 0); [discriminate|].
  specialize (IH b). destruct (np_divide a b); simpl; try discriminate.
  congruence.
Qed.

Lemma degenerate_iff (b r : Box) :
  degenerate b r = true <->
  Qmin (width b) (width r) == 0 \/ Qmin (height b) (height r) == 0.
Proof.
  unfold degenerate. rewrite orb_true_iff, !Qeq_bool_iff.
  rewrite (Q.min_comm (width r)), (Q.min_comm (height r)). reflexivity.
Qed.

(** C2. [iou box refs] raises an exception exactly when, for at least one
    reference, min(box.w, ref.w) or min(box.h, ref.h) is zero; the exception
    is the ValueError "Box has no area", and [iou (10,0) [(5,5)]] raises it. *)
Theorem iou_raises_iff_zero_intersection :
  (forall (b : Box) (refs : list Box),
      (exists e, iou b refs = Raise e) <->
      Exists (fun r => Qmin (width b) (width r) == 0
                       \/ Qmin (height b) (height r) == 0) refs)
  /\ (forall (b : Box) (refs : list Box) (e : exn),
         iou b refs = Raise e -> e = ValueError "Box has no area")
  /\ iou (box 10 0) [box 5 5] = Raise (ValueError "Box has no area").
Proof.
  split; [|split].
  - intros b refs. rewrite iou_pointwise, Exists_exists.
    destruct (existsb (degenerate b) refs) eqn:E.
    + split; [intros _ | intros _; now exists no_area].
      apply existsb_exists in E. destruct E as [r [Hin Hr]].
      exists r. split; [exact Hin | now apply degenerate_iff].
    + split.
      * intros [e He]. now apply np_divide_no_raise in He.
      * intros [r [Hin Hr]]. apply degenerate_iff in Hr.
        assert (existsb (degenerate b) refs = true)
          by (apply existsb_exists; now exists r).
        congruence.
  - intros b refs e. rewrite iou_pointwise.
    destruct (existsb (degenerate b) refs).
    + intros H. injection H as <-. reflexivity.
    + intros H. now apply np_divide_no_raise in H.
  - reflexivity.
Qed.

Lemma iou_raises_iff_zero_intersection_witness :
  exists e, iou (box 0 7) [box 2 2; box 3 1] = Raise e.
Proof.
  apply (proj1 iou_raises_iff_zero_intersection (box 0 7) [box 2 2; box 3 1]).
  apply Exists_cons_hd. left. reflexivity.
Defined.

(** ** Range, reflexivity and symmetry of [iou] *)

Lemma ratio_range (b c : Box) :
  valid_box b -> valid_box c ->
  0 <= inter b c / union b c /\ inter b c / union b c <= 1.
Proof.
  intros Hb Hc.
  pose proof (inter_pos b c Hb Hc) as Hi.
  pose proof (union_pos b c Hb Hc) as Hu.
  pose proof (union_ge_inter b c Hb Hc) as Hle.
  split.
  - apply Qle_shift_div_l; [exact Hu | lra].
  - apply Qle_shift_div_r; [exact Hu | lra].
Qed.

Lemma inter_self (b : Box) : inter b b == width b * height b.
Proof. unfold inter. rewrite !Q.min_id. reflexivity. Qed.

Lemma ratio_self (b : Box) : valid_box b -> inter b b / union b b == 1.
Proof.
  intros Hb. pose proof (union_pos b b Hb Hb) as Hu.
  assert (E : union b b == inter b b).
  { unfold union. rewrite inter_self. ring. }
  rewrite E in Hu |- *. field. intros E0. rewrite E0 in Hu. discriminate Hu.
Qed.

Lemma inter_comm (b c : Box) : inter b c == inter c b.
Proof.
  unfold inter.
  rewrite (Q.min_comm (width c)), (Q.min_comm (height c)). reflexivity.
Qed.

Lemma union_comm (b c : Box) : union b c == union c b.
Proof. unfold union. rewrite (inter_comm b c). ring. Qed.





(** ** The accuracy score *)

Lemma Qltb_lt (a b : Q) : Qltb a b = true <-> a < b.
Proof.
  unfold Qltb. rewrite negb_true_iff. split.
  - intros E. apply Qnot_le_lt. intros H.
    apply Qle_bool_iff in H. congruence.
  - intros H. destruct (Qle_bool b a) eqn:E; [|reflexivity].
    apply Qle_bool_iff in E. apply Qle_not_lt in E. contradiction.
Qed.

Lemma Qltb_ge (a b : Q) : Qltb a b = false <-> b <= a.
Proof.
  unfold Qltb. rewrite negb_false_iff. apply Qle_bool_iff.
Qed.

(** The running maximum is one of the values scanned and bounds them all. *)
Lemma fold_max_spec (t : list Q) : forall x : Q,
  let m := fold_left (fun m v => if Qltb m v then v else m) t x in
  (m = x \/ In m t) /\ x <= m /\ Forall (fun v => v <= m) t.
Proof.
  induction t as [|a t IH]; intros x; simpl.
  - repeat split; [now left | apply Qle_refl | constructor].
  - destruct (Qltb x a) eqn:E.
    + apply Qltb_lt in E. destruct (IH a) as [Hin [Hle Hall]].
      repeat split.
      * right. destruct Hin as [-> | Hin]; [now left | now right].
      * apply Qlt_le_weak. eapply Qlt_le_trans; eassumption.
      * constructor; assumption.
    + apply Qltb_ge in E. destruct (IH x) as [Hin [Hle Hall]].
      repeat split.
      * destruct Hin as [-> | Hin]; [now left | right; now right].
      * exact Hle.
      * constructor; [eapply Qle_trans; eassumption | assumption].
Qed.

Lemma np_max_spec (l : list Q) (m : Q) :
  np_max l = Ok m -> In m l /\ Forall (fun v => v <= m) l.
Proof.
  destruct l as [|x t]; simpl; [discriminate|].
  intros H. injection H as <-.
  destruct (fold_max_spec t x) as [Hin [Hle Hall]].
  split.
  - destruct Hin as [-> | Hin]; [now left | now right].
  - constructor; assumption.
Qed.

Lemma mapM_Forall {A B : Type} (f : A -> result B) (P : A -> Prop)
  (R : B -> Prop) (l : list A) :
  (forall a, P a -> exists b, f a = Ok b /\ R b) ->
  Forall P l ->
  exists bs, mapM f l = Ok bs /\ List.length bs = List.length l /\ Forall R bs.
Proof.
  intros Hf. induction 1 as [|a l Ha _ [bs [E [Hlen Hbs]]]]; simpl.
  - exists []. repeat split. constructor.
  - destruct (Hf a Ha) as [b [Eb Rb]]. rewrite Eb, E. simpl.
    exists (b :: bs). repeat split; [simpl; congruence | now constructor].
Qed.

Lemma fold_plus_ones (l : list Q) : forall a : Q,
  Forall (fun v => v == 1) l ->
  fold_left Qplus l a == a + inject_Z (Z.of_nat (List.length l)).
Proof.
  induction l as [|v l IH]; intros a H; simpl fold_left.
  - simpl. ring.
  - inversion H as [|? ? Hv Hl]; subst.
    rewrite (IH _ Hl).
    change (List.length (v :: l)) with (S (List.length l)).
    rewrite Nat2Z.inj_succ. unfold Z.succ. rewrite inject_Z_plus, Hv.
    ring.
Qed.

Lemma np_mean_ones (l : list Q) :
  l <> [] -> Forall (fun v => v == 1) l ->
  exists m, np_mean l = Ok m /\ m == 1.
Proof.
  intros Hne H. destruct l as [|v l]; [contradiction|].
  eexists. split; [reflexivity|].
  unfold np_sum. rewrite (fold_plus_ones _ 0 H).
  field. change (List.length (v :: l)) with (S (List.length l)).
  rewrite Nat2Z.inj_succ. unfold Z.succ. intros E.
  assert (P : 0 < inject_Z (Z.of_nat (List.length l) + 1)).
  { change 0 with (inject_Z 0). rewrite <- Zlt_Qlt. lia. }
  rewrite E in P. discriminate P.
Qed.

(** The best score of a dataset member against the dataset is 1. *)
Lemma best_against_self (boxes : list Box) (b : Box) :
  Forall valid_box boxes -> In b boxes ->
  exists m, (v <- iou b boxes ;; np_max v) = Ok m /\ m == 1.
Proof.
  intros Hall Hin.
  assert (Hb : valid_box b) by (rewrite Forall_forall in Hall; auto).
  rewrite (iou_valid b boxes Hb Hall). simpl.
  destruct (map (fun c => inter b c / union b c) boxes) as [|x t] eqn:E.
  { destruct boxes; [contradiction | discriminate]. }
  rewrite <- E. clear E x t.
  destruct (np_max (map (fun c => inter b c / union b c) boxes)) as [m| |] eqn:E.
  2,3: destruct boxes; [contradiction | discriminate].
  exists m. split; [reflexivity|].
  apply np_max_spec in E. destruct E as [Hm Hub].
  apply in_map_iff in Hm. destruct Hm as [c [<- Hc]].
  rewrite Forall_forall in Hall, Hub.
  apply Qle_antisym.
  - apply ratio_range; auto.
  - rewrite <- (ratio_self b Hb).
    apply Hub. apply in_map_iff. now exists b.
Qed.



(** ** Runs of [kmeans] *)

Lemma all_equal_eq (a b : list nat) :
  List.length a = List.length b -> (all_equal a b = true <-> a = b).
Proof.
  unfold all_equal. revert b.
  induction a as [|x a IH]; intros [|y b] Hlen; simpl in *; try discriminate.
  - split; reflexivity.
  - injection Hlen as Hlen. rewrite andb_true_iff, Nat.eqb_eq, (IH b Hlen).
    split; [intros [-> ->]; reflexivity | intros H; injection H; auto].
Qed.

Lemma mapM_length {A B : Type} (f : A -> result B) (l : list A) :
  forall bs, mapM f l = Ok bs -> List.length bs = List.length l.
Proof.
  induction l as [|a l IH]; simpl; intros bs H.
  - injection H as <-. reflexivity.
  - destruct (f a); simpl in H; try discriminate.
    destruct (mapM f l); simpl in H; try discriminate.
    injection H as <-. simpl. now rewrite (IH _ eq_refl).
Qed.

Lemma assign_length (boxes : list Box) (k : nat) (cs : list Box) (a : list nat) :
  assign boxes k cs = Ok a -> List.length a = List.length boxes.
Proof.
  unfold assign, np_argmin_axis1.
  destruct (distances_of boxes cs) as [d| |] eqn:E; simpl; try discriminate.
  destruct (k =? 0)%nat; [discriminate|].
  intros H. injection H as <-. rewrite length_map.
  eapply mapM_length. exact E.
Qed.

Section Loop.
Variable boxes : list Box.
Variable k : nat.
Variable dist : list Box -> result Box.

Lemma kmeans_loop_S (fuel : nat) (clusters : list Box) (last : list nat) :
  kmeans_loop (S fuel) boxes k dist clusters last =
  emit EvIter
    (lift (assign boxes k clusters) (fun nearest =>
       emit (EvAssign nearest)
         (if all_equal last nearest then halt (Ok clusters)
          else lift (update dist boxes nearest (seq 0 k) clusters)
                 (fun clusters' =>
                    emit (EvUpdate clusters')
                      (kmeans_loop fuel boxes k dist clusters' nearest))))).
Proof. reflexivity. Qed.

(** A run that returns: its assignments stop at the first repeat, it
    returns the centroids current at that point, and the last assignment
    is the assignment of the boxes to the returned centroids. *)
Lemma loop_returns (fuel : nat) :
  forall (clusters : list Box) (last : list nat) (cs : list Box),
    List.length last = List.length boxes ->
    outcome (kmeans_loop fuel boxes k dist clusters last) = Some (Ok cs) ->
    let tr := trace (kmeans_loop fuel boxes k dist clusters last) in
    stops_at_first_repeat last (assignments tr)
    /\ cs = current clusters tr
    /\ assign boxes k cs = Ok (List.last (assignments tr) []).
Proof.
  induction fuel as [|fuel IH]; intros clusters last cs Hlen.
  - simpl. discriminate.
  - rewrite kmeans_loop_S.
    destruct (assign boxes k clusters) as [a| |] eqn:EA; simpl;
      try discriminate.
    destruct (all_equal last a) eqn:EQ; simpl.
    + intros H. injection H as <-.
      apply all_equal_eq in EQ;
        [|now rewrite (assign_length _ _ _ _ EA)].
      repeat split; [now symmetry | exact EA].
    + destruct (update dist boxes a (seq 0 k) clusters) as [c'| |] eqn:EU;
        simpl; try discriminate.
      intros H.
      destruct (IH c' a cs (assign_length _ _ _ _ EA) H) as [Hs [Hc Ha]].
      destruct (assignments (trace (kmeans_loop fuel boxes k dist c' a)))
        as [|a' rest] eqn:Etr; [contradiction|].
      repeat split; try assumption.
      intros ->.
      assert (all_equal last last = true)
        by (now apply all_equal_eq).
      congruence.
Qed.

(** A run that has not returned has seen no repeated assignment. *)
Lemma loop_running (fuel : nat) :
  forall (clusters : list Box) (last : list nat),
    List.length last = List.length boxes ->
    (forall cs, outcome (kmeans_loop fuel boxes k dist clusters last)
                <> Some (Ok cs)) ->
    no_repeat last
      (assignments (trace (kmeans_loop fuel boxes k dist clusters last))).
Proof.
  induction fuel as [|fuel IH]; intros clusters last Hlen.
  - simpl. trivial.
  - rewrite kmeans_loop_S.
    destruct (assign boxes k clusters) as [a| |] eqn:EA; simpl; trivial.
    destruct (all_equal last a) eqn:EQ; simpl.
    + intros H. now destruct (H clusters).
    + assert (Hne : a <> last).
      { intros ->. assert (all_equal last last = true)
          by (now apply all_equal_eq). congruence. }
      destruct (update dist boxes a (seq 0 k) clusters) as [c'| |] eqn:EU;
        simpl; intros H; split; trivial.
      apply IH; [exact (assign_length _ _ _ _ EA) | exact H].
Qed.
(** The trace of a run records what the loop computed. *)
Lemma loop_faithful (fuel : nat) :
  forall (clusters : list Box) (last : list nat),
    faithful boxes k dist clusters last
      (trace (kmeans_loop fuel boxes k dist clusters last)).
Proof.
  induction fuel as [|fuel IH]; intros clusters last; [exact I|].
  rewrite kmeans_loop_S.
  destruct (assign boxes k clusters) as [a| |] eqn:EA; simpl; trivial.
  split; [exact EA|].
  destruct (all_equal last a); simpl; trivial.
  destruct (update dist boxes a (seq 0 k) clusters) as [c'| |] eqn:EU;
    simpl; trivial.
  split; [exact EU | apply IH].
Qed.
End Loop.

(** Before the loop: either an error, or the initial centroids. *)
Lemma kmeans_init (fuel : nat) (boxes : list Box) (k : Z)
  (dist : list Box -> result Box) (drawn : list nat) :
  (exists r, kmeans fuel boxes k dist drawn = halt r /\ forall cs, r <> Ok cs)
  \/ (exists clusters,
         (0 <= k)%Z
         /\ take boxes drawn = Ok clusters
         /\ kmeans fuel boxes k dist drawn =
            kmeans_loop fuel boxes (Z.to_nat k) dist clusters
              (repeat 0%nat (List.length boxes))).
Proof.
  unfold kmeans. destruct (k <? 0)%Z eqn:Ek.
  - left. eexists. split; [reflexivity | discriminate].
  - apply Z.ltb_ge in Ek.
    destruct (np_random_choice (List.length boxes) (Z.to_nat k) drawn)
      as [idx| |] eqn:Ec; simpl.
    + assert (idx = drawn) as ->.
      { unfold np_random_choice in Ec.
        destruct (_ && _)%bool; [discriminate|].
        destruct (_ <? _)%nat; [discriminate|]. now injection Ec. }
      destruct (take boxes drawn) as [cs| |] eqn:Et; simpl.
      * right. exists cs. repeat split; assumption.
      * left. eexists. split; [reflexivity | discriminate].
      * left. eexists. split; [reflexivity | discriminate].
    + left. eexists. split; [reflexivity | discriminate].
    + left. eexists. split; [reflexivity | discriminate].
Qed.

Lemma stops_last (l : list (list nat)) : forall prev : list nat,
  stops_at_first_repeat prev l ->
  exists prefix a,
    l = prefix ++ [a]
    /\ List.last (prev :: prefix) [] = a
    /\ List.last l [] = a.
Proof.
  induction l as [|x l IH]; intros prev H; [contradiction|].
  destruct l as [|y l].
  - simpl in H. subst x. exists [], prev. repeat split.
  - destruct H as [_ H]. destruct (IH x H) as [prefix [a [E [Hl Hl']]]].
    exists (x :: prefix), a. split; [|split].
    + rewrite E. reflexivity.
    + exact Hl.
    + rewrite E in Hl' |- *. destruct prefix; exact Hl'.
Qed.

(** C4. A run of [kmeans] that returns has computed at least one
    assignment; the last assignment is the first one identical to its
    predecessor, where the predecessor of the first assignment is the
    all-zero assignment; the centroids returned are those current at that
    point.  A run that has not returned has seen no assignment identical
    to its predecessor.  In every run the assignments recorded are those of
    the assignment step on the centroids then current. *)
Theorem kmeans_stops_at_first_stable_assignment (fuel : nat)
  (boxes : list Box) (k : Z) (dist : list Box -> result Box)
  (drawn : list nat) :
  (forall cs,
      outcome (kmeans fuel boxes k dist drawn) = Some (Ok cs) ->
      assignments (trace (kmeans fuel boxes k dist drawn)) <> []
      /\ stops_at_first_repeat (repeat 0%nat (List.length boxes))
           (assignments (trace (kmeans fuel boxes k dist drawn)))
      /\ exists initial,
           take boxes drawn = Ok initial
           /\ cs = current initial (trace (kmeans fuel boxes k dist drawn)))
  /\ ((forall cs, outcome (kmeans fuel boxes k dist drawn) <> Some (Ok cs)) ->
      no_repeat (repeat 0%nat (List.length boxes))
        (assignments (trace (kmeans fuel boxes k dist drawn))))
  /\ (forall initial,
         take boxes drawn = Ok initial ->
         faithful boxes (Z.to_nat k) dist initial
           (repeat 0%nat (List.length boxes))
           (trace (kmeans fuel boxes k dist drawn))).
Proof.
  destruct (kmeans_init fuel boxes k dist drawn)
    as [[r [E Hr]] | [clusters [Hk [Et E]]]]; rewrite E.
  - split; [|split].
    + intros cs H. simpl in H. injection H as ->. now destruct (Hr cs).
    + intros _. simpl. trivial.
    + intros initial _. exact I.
  - split; [|split].
    + intros cs H.
      destruct (loop_returns boxes (Z.to_nat k) dist fuel clusters _ cs
                  (repeat_length _ _) H) as [Hs [Hc _]].
      split; [|split].
      * intros E0. rewrite E0 in Hs. exact Hs.
      * exact Hs.
      * exists clusters. split; assumption.
    + intros H. apply loop_running; [apply repeat_length | exact H].
    + intros initial Hi. rewrite Et in Hi. injection Hi as <-.
      apply loop_faithful.
Qed.

Lemma kmeans_stops_at_first_stable_assignment_witness :
  assignments (trace (kmeans 5 scenario 2 np_median_axis0 [0; 2]%nat)) <> []
  /\ stops_at_first_repeat (repeat 0%nat 4)
       (assignments (trace (kmeans 5 scenario 2 np_median_axis0 [0; 2]%nat)))
  /\ exists initial,
       take scenario [0; 2]%nat = Ok initial
       /\ [mkBox (200 # 2) (200 # 2); mkBox (20 # 2) (20 # 2)]
          = current initial
              (trace (kmeans 5 scenario 2 np_median_axis0 [0; 2]%nat)).
Proof.
  apply (proj1 (kmeans_stops_at_first_stable_assignment
                  5 scenario 2 np_median_axis0 [0; 2]%nat)).
  vm_compute. reflexivity.
Defined.

(** C8. When a run of [kmeans] returns centroids [cs], the assignment step
    run again on [cs] gives the last assignment of the run, which is the
    one that equalled its predecessor. *)
Theorem kmeans_assignment_reproduced (fuel : nat) (boxes : list Box) (k : Z)
  (dist : list Box -> result Box) (drawn : list nat) (cs : list Box) :
  outcome (kmeans fuel boxes k dist drawn) = Some (Ok cs) ->
  exists prefix a,
    assignments (trace (kmeans fuel boxes k dist drawn)) = prefix ++ [a]
    /\ List.last (repeat 0%nat (List.length boxes) :: prefix) [] = a
    /\ assign boxes (Z.to_nat k) cs = Ok a.
Proof.
  destruct (kmeans_init fuel boxes k dist drawn)
    as [[r [E Hr]] | [clusters [Hk [Et E]]]]; rewrite E.
  - intros H. simpl in H. injection H as ->. now destruct (Hr cs).
  - intros H.
    destruct (loop_returns boxes (Z.to_nat k) dist fuel clusters _ cs
                (repeat_length _ _) H) as [Hs [_ Ha]].
    destruct (stops_last _ _ Hs) as [prefix [a [Ep [Hl Hl']]]].
    exists prefix, a. repeat split; try assumption.
    rewrite Ha, Hl'. reflexivity.
Qed.

Lemma kmeans_assignment_reproduced_witness :
  exists prefix a,
    assignments (trace (kmeans 5 scenario 2 np_median_axis0 [3; 1]%nat))
    = prefix ++ [a]
    /\ List.last (repeat 0%nat 4 :: prefix) [] = a
    /\ assign scenario 2
         [mkBox (20 # 2) (20 # 2); mkBox (200 # 2) (200 # 2)] = Ok a.
Proof.
  apply (kmeans_assignment_reproduced 5 scenario 2 np_median_axis0
           [3; 1]%nat).
  vm_compute. reflexivity.
Defined.

(** ** One cluster *)

Lemma assign_single (boxes : list Box) (b : Box) :
  valid_box b -> Forall valid_box boxes ->
  assign boxes 1 [b] = Ok (repeat 0%nat (List.length boxes)).
Proof.
  intros Hb Hall. unfold assign.
  assert (E : distances_of boxes [b] =
              Ok (map (fun x => [1 - inter x b / union x b]) boxes)).
  { unfold distances_of.
    induction Hall as [|x l Hx _ IH]; simpl mapM; [reflexivity|].
    rewrite IH, (iou_valid x [b] Hx); [reflexivity | now constructor]. }
  rewrite E. unfold bind, np_argmin_axis1. change (1 =? 0)%nat with false.
  cbv iota. f_equal. rewrite map_map. clear.
  induction boxes as [|x l IH]; simpl; [reflexivity | f_equal; exact IH].
Qed.

Lemma all_equal_refl (a : list nat) : all_equal a a = true.
Proof. now apply all_equal_eq. Qed.

(** C10. With [k = 1] on a non-empty dataset of boxes of the data model, a
    run enters the loop once, assigns every box to cluster 0 and returns:
    the single centroid is the sampled box, no update step runs, and the
    aggregator [dist] plays no part. *)
Theorem kmeans_single_cluster (boxes : list Box)
  (dist : list Box -> result Box) (drawn : list nat) (fuel : nat) :
  boxes <> [] -> Forall valid_box boxes ->
  sample_ok (List.length boxes) 1 drawn ->
  exists i b,
    drawn = [i] /\ nth_error boxes i = Some b
    /\ kmeans (S fuel) boxes 1 dist drawn
       = mkRun [EvIter; EvAssign (repeat 0%nat (List.length boxes))]
           (Some (Ok [b]))
    /\ updates (trace (kmeans (S fuel) boxes 1 dist drawn)) = 0%nat.
Proof.
  intros Hne Hall [Hlen [_ Hlt]].
  destruct drawn as [|i [|j drawn]]; try discriminate.
  inversion Hlt as [|? ? Hi _]; subst.
  destruct (nth_error boxes i) as [b|] eqn:Eb;
    [|apply nth_error_None in Eb; lia].
  assert (Hb : valid_box b).
  { rewrite Forall_forall in Hall. apply Hall. eapply nth_error_In; eauto. }
  assert (E : kmeans (S fuel) boxes 1 dist [i]
              = mkRun [EvIter; EvAssign (repeat 0%nat (List.length boxes))]
                  (Some (Ok [b]))).
  { assert (Ec : np_random_choice (List.length boxes) 1 [i] = Ok [i]).
    { unfold np_random_choice.
      destruct (Nat.eqb_spec (List.length boxes) 0); [lia|]. simpl.
      destruct (Nat.ltb_spec (List.length boxes) 1); [lia | reflexivity]. }
    assert (Et : take boxes [i] = Ok [b]).
    { unfold take. simpl. rewrite Eb. reflexivity. }
    unfold kmeans. change (1 <? 0)%Z with false. cbv iota.
    change (Z.to_nat 1) with 1%nat. rewrite Ec. simpl bind. rewrite Et.
    unfold lift at 1.
    rewrite kmeans_loop_S, (assign_single boxes b Hb Hall).
    unfold lift. rewrite all_equal_refl. reflexivity. }
  exists i, b. repeat split; try assumption.
  rewrite E. reflexivity.
Qed.

Lemma kmeans_single_cluster_witness :
  exists i b,
    [2%nat] = [i] /\ nth_error scenario i = Some b
    /\ kmeans 1 scenario 1 np_median_axis0 [2%nat]
       = mkRun [EvIter; EvAssign (repeat 0%nat 4)] (Some (Ok [b]))
    /\ updates (trace (kmeans 1 scenario 1 np_median_axis0 [2%nat])) = 0%nat.
Proof.
  apply (kmeans_single_cluster scenario np_median_axis0 [2%nat] 0).
  - discriminate.
  - repeat constructor.
  - split; [reflexivity|]. split; repeat constructor; simpl; intuition lia.
Defined.

(** ** As many clusters as boxes, all boxes distinct *)

Lemma inter_full_box_eq (b c : Box) :
  valid_box b -> valid_box c ->
  inter b c == width b * height b -> inter b c == width c * height c ->
  box_eq b c.
Proof.
  intros Hb Hc. unfold inter.
  pose proof (min_w_pos b c Hb Hc) as Hx.
  pose proof (min_h_pos b c Hb Hc) as Hy.
  pose proof (Q.le_min_r (width c) (width b)) as Hxb.
  pose proof (Q.le_min_l (width c) (width b)) as Hxc.
  pose proof (Q.le_min_r (height c) (height b)) as Hyb.
  pose proof (Q.le_min_l (height c) (height b)) as Hyc.
  destruct Hb as [Hwb Hhb], Hc as [Hwc Hhc].
  set (x := Qmin (width c) (width b)) in *.
  set (y := Qmin (height c) (height b)) in *.
  intros E1 E2.
  assert (x == width b).
  { apply Qle_antisym; [exact Hxb|]. apply Qnot_lt_le. intros Hlt. nra. }
  assert (y == height b).
  { apply Qle_antisym; [exact Hyb|]. apply Qnot_lt_le. intros Hlt. nra. }
  assert (x == width c).
  { apply Qle_antisym; [exact Hxc|]. apply Qnot_lt_le. intros Hlt. nra. }
  assert (y == height c).
  { apply Qle_antisym; [exact Hyc|]. apply Qnot_lt_le. intros Hlt. nra. }
  split; lra.
Qed.

Lemma ratio_lt_1 (b c : Box) :
  valid_box b -> valid_box c -> ~ box_eq b c ->
  inter b c / union b c < 1.
Proof.
  intros Hb Hc Hne.
  apply Qlt_shift_div_r; [now apply union_pos|]. rewrite Qmult_1_l.
  pose proof (inter_le_box b c Hb Hc) as H1.
  pose proof (inter_le_ref b c Hb Hc) as H2.
  unfold union. apply Qnot_le_lt. intros H. apply Hne.
  apply inter_full_box_eq; try assumption; lra.
Qed.

Lemma argmin_from_keep (l : list Q) : forall (best : Q) (besti i : nat),
  Forall (fun x => best <= x) l -> argmin_from best besti i l = besti.
Proof.
  induction l as [|x l IH]; intros best besti i H; simpl; [reflexivity|].
  inversion H as [|? ? Hx Hl]; subst.
  apply Qltb_ge in Hx. rewrite Hx. now apply IH.
Qed.

Lemma argmin_from_at (l : list Q) : forall (best : Q) (besti i p : nat) (v : Q),
  nth_error l p = Some v ->
  v < best ->
  (forall p' v', nth_error l p' = Some v' -> p' <> p -> v < v') ->
  argmin_from best besti i l = (i + p)%nat.
Proof.
  induction l as [|x l IH]; intros best besti i p v Hp Hv Hothers.
  - destruct p; discriminate.
  - destruct p as [|p]; simpl in Hp |- *.
    + injection Hp as ->. apply Qltb_lt in Hv. rewrite Hv.
      rewrite argmin_from_keep; [lia|].
      apply Forall_forall. intros y Hy.
      apply In_nth_error in Hy. destruct Hy as [q Hq].
      apply Qlt_le_weak. apply (Hothers (S q) y); [exact Hq | discriminate].
    + assert (Hx : v < x) by (apply (Hothers 0%nat x); [reflexivity | discriminate]).
      assert (Hrest : forall p' v', nth_error l p' = Some v' -> p' <> p -> v < v').
      { intros p' v' H1 H2. apply (Hothers (S p') v'); [exact H1 | congruence]. }
      destruct (Qltb x best).
      * rewrite (IH x i (S i) p v Hp Hx Hrest). lia.
      * rewrite (IH best besti (S i) p v Hp Hv Hrest). lia.
Qed.

Lemma argmin_at (l : list Q) (p : nat) (v : Q) :
  nth_error l p = Some v ->
  (forall p' v', nth_error l p' = Some v' -> p' <> p -> v < v') ->
  argmin l = p.
Proof.
  intros Hp Hothers. destruct l as [|x l]; [destruct p; discriminate|].
  unfold argmin. destruct p as [|p]; simpl in Hp.
  - injection Hp as ->. apply argmin_from_keep.
    apply Forall_forall. intros y Hy.
    apply In_nth_error in Hy. destruct Hy as [q Hq].
    apply Qlt_le_weak. apply (Hothers (S q) y); [exact Hq | discriminate].
  - assert (Hx : v < x) by (apply (Hothers 0%nat x); [reflexivity | discriminate]).
    rewrite (argmin_from_at l x 0%nat 1%nat p v Hp Hx); [reflexivity|].
    intros p' v' H1 H2. apply (Hothers (S p') v'); [exact H1 | congruence].
Qed.

Lemma box_eq_refl (b : Box) : box_eq b b.
Proof. split; reflexivity. Qed.

Lemma box_eq_sym (a b : Box) : box_eq a b -> box_eq b a.
Proof. intros [H1 H2]. split; symmetry; assumption. Qed.

Lemma distinct_NoDup (boxes : list Box) : pairwise_distinct boxes -> NoDup boxes.
Proof.
  induction 1 as [|a l Ha _ IH]; constructor; [|exact IH].
  intros Hin. rewrite Forall_forall in Ha.
  apply (Ha a Hin). apply box_eq_refl.
Qed.

Lemma distinct_eq (boxes : list Box) (a b : Box) :
  pairwise_distinct boxes -> In a boxes -> In b boxes -> box_eq a b -> a = b.
Proof.
  intros Hd Ha Hb E.
  destruct (ForallOrdPairs_In Hd a b Ha Hb) as [H | [H | H]].
  - exact H.
  - contradiction.
  - apply box_eq_sym in E. contradiction.
Qed.

Lemma select_filter (boxes : list Box) (f : Box -> bool) :
  select boxes (map f boxes) = filter f boxes.
Proof.
  induction boxes as [|b l IH]; simpl; [reflexivity|].
  destruct (f b); now rewrite IH.
Qed.

Lemma filter_singleton {A : Type} (f : A -> bool) (l : list A) (x : A) :
  NoDup l -> In x l -> (forall y, In y l -> (f y = true <-> y = x)) ->
  filter f l = [x].
Proof.
  induction 1 as [|a l Ha Hnd IH]; intros Hin Hf; [contradiction|].
  simpl. destruct (f a) eqn:Ea.
  - assert (a = x) as -> by (apply Hf; [now left | exact Ea]).
    f_equal. clear IH Hin.
    induction l as [|y l IHl]; simpl; [reflexivity|].
    destruct (f y) eqn:Ey.
    + assert (y = x) by (apply Hf; [right; now left | exact Ey]).
      subst y. exfalso. apply Ha. now left.
    + apply IHl.
      * intros H. apply Ha. now right.
      * now inversion Hnd.
      * intros z [-> | Hz]; apply Hf; [now left | right; now right].
  - destruct Hin as [-> | Hin].
    + assert (f x = true) by (apply Hf; [now left | reflexivity]). congruence.
    + apply IH; [exact Hin|]. intros y Hy. apply Hf. now right.
Qed.

Lemma set_row_same (clusters : list Box) : forall (j : nat) (c : Box),
  nth_error clusters j = Some c -> set_row clusters j c = clusters.
Proof.
  induction clusters as [|x l IH]; intros [|j] c H; simpl in *;
    try discriminate.
  - now injection H as ->.
  - now rewrite IH.
Qed.

Lemma median_single (b : Box) : np_median_axis0 [b] = Ok b.
Proof. destruct b. reflexivity. Qed.

Lemma distances_valid (boxes clusters : list Box) :
  Forall valid_box boxes -> Forall valid_box clusters ->
  distances_of boxes clusters = Ok (map (distance_row clusters) boxes).
Proof.
  intros Hall Hcs. unfold distances_of.
  induction Hall as [|b l Hb _ IH]; cbn [mapM map]; [reflexivity|].
  rewrite IH, (iou_valid b clusters Hb Hcs). reflexivity.
Qed.

Section DistinctBoxes.
Variable boxes : list Box.
Variable clusters : list Box.
Variable dist : list Box -> result Box.
Hypothesis Hvalid : Forall valid_box boxes.
Hypothesis Hdistinct : pairwise_distinct boxes.
Hypothesis Hnodup : NoDup clusters.
Hypothesis Hsame : forall c, In c clusters <-> In c boxes.
Hypothesis Hsingle : forall b, dist [b] = Ok b.

Lemma valid_member (b : Box) : In b boxes -> valid_box b.
Proof. rewrite Forall_forall in Hvalid. apply Hvalid. Qed.

(** A box is nearest to the centroid equal to itself. *)
Lemma nearest_own (b : Box) (j : nat) :
  nth_error clusters j = Some b -> argmin (distance_row clusters b) = j.
Proof.
  intros Hj.
  assert (Hb : In b boxes) by (apply Hsame; eapply nth_error_In; eauto).
  apply (argmin_at _ j (1 - inter b b / union b b)).
  - unfold distance_row. rewrite !nth_error_map, Hj. reflexivity.
  - unfold distance_row. intros p' v' Hp' Hne.
    rewrite !nth_error_map in Hp'.
    destruct (nth_error clusters p') as [c|] eqn:Ec; [|discriminate].
    simpl in Hp'. injection Hp' as <-.
    assert (Hc : In c boxes) by (apply Hsame; eapply nth_error_In; eauto).
    assert (Hcb : ~ box_eq b c).
    { intros E. apply (distinct_eq boxes b c Hdistinct Hb Hc) in E. subst c.
      apply Hne. apply (proj1 (NoDup_nth_error clusters) Hnodup).
      - apply nth_error_Some. congruence.
      - congruence. }
    pose proof (ratio_self b (valid_member b Hb)) as E1.
    pose proof (ratio_lt_1 b c (valid_member b Hb) (valid_member c Hc) Hcb).
    lra.
Qed.

Lemma distances_distinct :
  distances_of boxes clusters = Ok (map (distance_row clusters) boxes).
Proof.
  apply distances_valid; [exact Hvalid|].
  apply Forall_forall. intros c Hc. apply valid_member. now apply Hsame.
Qed.

Lemma assign_distinct :
  clusters <> [] ->
  assign boxes (List.length clusters) clusters
  = Ok (map (fun b => argmin (distance_row clusters b)) boxes).
Proof.
  intros Hne. unfold assign. rewrite distances_distinct. simpl bind.
  unfold np_argmin_axis1.
  destruct clusters; [contradiction|]. simpl Nat.eqb. cbv iota.
  now rewrite map_map.
Qed.

(** The members of cluster [j] are the one box equal to centroid [j]. *)
Lemma members_own (j : nat) (c : Box) :
  nth_error clusters j = Some c ->
  select boxes
    (map (Nat.eqb j) (map (fun b => argmin (distance_row clusters b)) boxes))
  = [c].
Proof.
  intros Hj. rewrite map_map, select_filter.
  apply filter_singleton.
  - now apply distinct_NoDup.
  - apply Hsame. eapply nth_error_In; eauto.
  - intros y Hy. apply Hsame in Hy.
    apply In_nth_error in Hy. destruct Hy as [jy Hjy].
    rewrite (nearest_own y jy Hjy), Nat.eqb_eq. split.
    + intros ->. congruence.
    + intros ->. apply (proj1 (NoDup_nth_error clusters) Hnodup).
      * apply nth_error_Some. congruence.
      * congruence.
Qed.

Lemma update_fixed (todo : list nat) :
  Forall (fun j => (j < List.length clusters)%nat) todo ->
  update dist boxes (map (fun b => argmin (distance_row clusters b)) boxes)
    todo clusters = Ok clusters.
Proof.
  induction 1 as [|j todo Hj _ IH]; simpl; [reflexivity|].
  destruct (nth_error clusters j) as [c|] eqn:Ec;
    [|apply nth_error_None in Ec; lia].
  rewrite (members_own j c Ec), Hsingle. simpl.
  rewrite (set_row_same _ _ _ Ec). exact IH.
Qed.

(** With as many centroids as boxes, each centroid one of the boxes, the
    loop returns the centroids it started from. *)
Lemma loop_distinct (fuel : nat) (last : list nat) :
  clusters <> [] ->
  outcome (kmeans_loop (S (S fuel)) boxes (List.length clusters) dist
             clusters last) = Some (Ok clusters).
Proof.
  intros Hne.
  rewrite kmeans_loop_S, (assign_distinct Hne).
  cbv beta iota delta [lift emit outcome].
  destruct (all_equal last _); [reflexivity|].
  rewrite update_fixed;
    [|apply Forall_forall; intros j Hj; apply in_seq in Hj; lia].
  rewrite kmeans_loop_S, (assign_distinct Hne).
  cbv beta iota delta [lift emit outcome].
  rewrite all_equal_refl. reflexivity.
Qed.
End DistinctBoxes.

Lemma take_Forall2 (boxes : list Box) (idx : list nat) : forall cs,
  take boxes idx = Ok cs ->
  Forall2 (fun i c => nth_error boxes i = Some c) idx cs.
Proof.
  unfold take. induction idx as [|i idx IH]; simpl; intros cs H.
  - injection H as <-. constructor.
  - destruct (nth_error boxes i) as [b|] eqn:Eb; simpl in H; [|discriminate].
    destruct (mapM _ idx) as [cs'| |]; simpl in H; try discriminate.
    injection H as <-. constructor; [exact Eb | now apply IH].
Qed.

(** A sample of all the indices hits every index. *)
Lemma sample_full (r : nat) (drawn : list nat) :
  sample_ok r r drawn -> forall i, (i < r)%nat -> In i drawn.
Proof.
  intros [Hlen [Hnd Hlt]] i Hi.
  apply (NoDup_length_incl Hnd (l' := seq 0 r)).
  - rewrite length_seq. lia.
  - intros j Hj. rewrite Forall_forall in Hlt. apply in_seq.
    specialize (Hlt j Hj). lia.
  - apply in_seq. lia.
Qed.

Lemma Forall2_In_l {A B : Type} (R : A -> B -> Prop) (l : list A) (l' : list B) :
  Forall2 R l l' -> forall a, In a l -> exists b, In b l' /\ R a b.
Proof.
  induction 1 as [|x y l l' Hxy _ IH]; intros a Ha; [contradiction|].
  destruct Ha as [-> | Ha].
  - exists y. split; [now left | exact Hxy].
  - destruct (IH a Ha) as [b [Hb Hab]]. exists b. split; [now right | exact Hab].
Qed.

Lemma Forall2_In_r {A B : Type} (R : A -> B -> Prop) (l : list A) (l' : list B) :
  Forall2 R l l' -> forall b, In b l' -> exists a, In a l /\ R a b.
Proof.
  induction 1 as [|x y l l' Hxy _ IH]; intros b Hb; [contradiction|].
  destruct Hb as [<- | Hb].
  - exists x. split; [now left | exact Hxy].
  - destruct (IH b Hb) as [a [Ha Hab]]. exists a. split; [now right | exact Hab].
Qed.

(** The initial centroids of a full sample of distinct boxes: the boxes
    themselves, each once. *)
Lemma take_full_sample (boxes clusters : list Box) (drawn : list nat) :
  NoDup boxes ->
  sample_ok (List.length boxes) (List.length boxes) drawn ->
  take boxes drawn = Ok clusters ->
  List.length clusters = List.length boxes
  /\ NoDup clusters
  /\ (forall c, In c clusters <-> In c boxes).
Proof.
  intros Hnb Hs Ht. pose proof (take_Forall2 _ _ _ Ht) as HF.
  pose proof (sample_full _ _ Hs) as Hfull.
  destruct Hs as [Hlen [Hnd _]].
  split; [|split].
  - rewrite <- (Forall2_length HF). exact Hlen.
  - clear Hfull Hlen Ht. induction HF as [|i c idx cs Hic HF IH].
    + constructor.
    + inversion Hnd as [|? ? Hni Hnd']; subst.
      constructor; [|now apply IH].
      intros Hin. destruct (Forall2_In_r _ _ _ HF c Hin) as [i' [Hi' Hi'c]].
      assert (i = i').
      { apply (proj1 (NoDup_nth_error boxes) Hnb).
        - apply nth_error_Some. congruence.
        - congruence. }
      subst i'. contradiction.
  - intros c. split.
    + intros Hc. destruct (Forall2_In_r _ _ _ HF c Hc) as [i [_ Hi]].
      eapply nth_error_In; eauto.
    + intros Hc. apply In_nth_error in Hc. destruct Hc as [i Hi].
      assert (Hlt : (i < List.length boxes)%nat)
        by (apply nth_error_Some; congruence).
      destruct (Forall2_In_l _ _ _ HF i (Hfull i Hlt)) as [c' [Hc' Hic']].
      congruence.
Qed.

(** ** Configurations the loop cannot run on *)

Lemma take_ok (boxes : list Box) (idx : list nat) :
  Forall (fun i => (i < List.length boxes)%nat) idx ->
  exists cs, take boxes idx = Ok cs.
Proof.
  unfold take. induction 1 as [|i idx Hi _ [cs IH]]; simpl.
  - now exists [].
  - destruct (nth_error boxes i) as [b|] eqn:Eb;
      [|apply nth_error_None in Eb; lia].
    rewrite IH. simpl. now exists (b :: cs).
Qed.

Lemma distances_no_clusters (boxes : list Box) :
  distances_of boxes [] = Ok (map (fun _ => []) boxes).
Proof.
  unfold distances_of.
  induction boxes as [|b l IH]; cbn [mapM]; [reflexivity|].
  rewrite IH. reflexivity.
Qed.




(** ** The four-box scenario with two clusters *)

Lemma sample_pairs (drawn : list nat) :
  sample_ok 4 2 drawn ->
  exists i j, drawn = [i; j] /\ (i < 4)%nat /\ (j < 4)%nat /\ i <> j.
Proof.
  intros [Hlen [Hnd Hlt]].
  destruct drawn as [|i [|j [|? ?]]]; try discriminate.
  exists i, j. inversion Hlt as [|? ? Hi Hlt']; subst.
  inversion Hlt' as [|? ? Hj _]; subst.
  inversion Hnd as [|? ? Hni _]; subst.
  repeat split; try assumption.
  intros ->. apply Hni. now left.
Qed.

Ltac settle_scenario_run :=
  split;
  [ intros fuel Hf; destruct fuel as [|[|fuel]];
    [lia | lia | vm_compute; reflexivity]
  | do 3 eexists; split; [vm_compute; reflexivity|];
    split; [vm_compute; reflexivity|]; split;
    [ first
        [ intros H; exfalso; apply H; split; vm_compute; reflexivity
        | intros _; split;
          [ do 2 eexists; split; [reflexivity|];
            first [ left; repeat split; vm_compute; reflexivity
                  | right; repeat split; vm_compute; reflexivity ]
          | eexists; split; vm_compute; reflexivity ] ]
    | first
        [ intros [H _]; vm_compute in H; discriminate H
        | intros _; reflexivity ] ] ].




(** * Further properties *)

(** ** Further properties of [iou] *)

Lemma np_divide_length (a b : list Q) : forall vs,
  np_divide a b = Ok vs ->
  List.length vs = Nat.min (List.length a) (List.length b).
Proof.
  revert b. induction a as [|x a IH]; intros [|y b] vs; simpl;
    try (intros H; injection H as <-; reflexivity).
  destruct (Qeq_bool y 0); [discriminate|].
  destruct (np_divide a b) as [t| |] eqn:E; simpl; try discriminate.
  intros H. injection H as <-. simpl. now rewrite (IH b t E).
Qed.

Lemma iou_length (b : Box) (clusters : list Box) (vs : list Q) :
  iou b clusters = Ok vs -> List.length vs = List.length clusters.
Proof.
  rewrite iou_pointwise.
  destruct (existsb (degenerate b) clusters); [discriminate|].
  intros H. apply np_divide_length in H.
  rewrite !length_map, Nat.min_id in H. exact H.
Qed.

(** X1. Whatever the box and the references, when [iou] returns it returns
    one value per reference; on no reference at all it returns the empty
    array. *)
Theorem iou_one_value_per_reference (b : Box) (clusters : list Box) :
  (forall vs, iou b clusters = Ok vs ->
              List.length vs = List.length clusters)
  /\ iou b [] = Ok [].
Proof.
  split; [|reflexivity]. intros vs. apply iou_length.
Qed.

Lemma iou_one_value_per_reference_witness :
  List.length [16 # 20; 1 # 16] = List.length [box 4 5; box 1 1].
Proof.
  apply (proj1 (iou_one_value_per_reference (box 4 4) [box 4 5; box 1 1])).
  reflexivity.
Defined.

Lemma Qmin_scale (s a b : Q) : 0 < s -> Qmin (s * a) (s * b) == s * Qmin a b.
Proof.
  intros Hs. destruct (Qlt_le_dec b a) as [H | H].
  - rewrite (Q.min_r a b) by (now apply Qlt_le_weak).
    apply Q.min_r. apply Qmult_le_l; [exact Hs | now apply Qlt_le_weak].
  - rewrite (Q.min_l a b) by exact H.
    apply Q.min_l. now apply Qmult_le_l.
Qed.

Lemma inter_scale (s : Q) (b c : Box) :
  0 < s -> inter (scale s b) (scale s c) == s * s * inter b c.
Proof.
  intros Hs. unfold inter, scale. simpl.
  rewrite !Qmin_scale by exact Hs. ring.
Qed.

Lemma union_scale (s : Q) (b c : Box) :
  0 < s -> union (scale s b) (scale s c) == s * s * union b c.
Proof.
  intros Hs. unfold union. rewrite inter_scale by exact Hs.
  unfold scale. simpl. ring.
Qed.

Lemma Qeq_bool_compat (a b : Q) : (a == 0 <-> b == 0) -> Qeq_bool a 0 = Qeq_bool b 0.
Proof.
  intros H. destruct (Qeq_bool a 0) eqn:Ea, (Qeq_bool b 0) eqn:Eb; trivial.
  - apply Qeq_bool_iff, H, Qeq_bool_iff in Ea. congruence.
  - apply Qeq_bool_iff, H, Qeq_bool_iff in Eb. congruence.
Qed.

Lemma scale_zero_iff (s x : Q) : 0 < s -> (s * x == 0 <-> x == 0).
Proof.
  intros Hs. split; intros H.
  - destruct (Qmult_integral _ _ H) as [E | E]; [|exact E].
    rewrite E in Hs. discriminate Hs.
  - rewrite H. ring.
Qed.

Lemma degenerate_scale (s : Q) (b c : Box) :
  0 < s -> degenerate (scale s b) (scale s c) = degenerate b c.
Proof.
  intros Hs. unfold degenerate, scale. simpl. f_equal.
  - apply Qeq_bool_compat. rewrite Qmin_scale by exact Hs.
    now apply scale_zero_iff.
  - apply Qeq_bool_compat. rewrite Qmin_scale by exact Hs.
    now apply scale_zero_iff.
Qed.



Lemma inter_contained (b c : Box) :
  width b <= width c -> height b <= height c ->
  inter b c == width b * height b.
Proof.
  intros Hw Hh. unfold inter.
  rewrite (Q.min_r (width c) (width b) Hw), (Q.min_r (height c) (height b) Hh).
  reflexivity.
Qed.

Lemma ratio_box_eq (b c : Box) :
  valid_box b -> box_eq b c -> inter b c / union b c == 1.
Proof.
  intros Hb [Ew Eh].
  assert (Ei : inter b c == width b * height b).
  { apply inter_contained; [rewrite Ew | rewrite Eh]; apply Qle_refl. }
  unfold union. rewrite Ei, <- Ew, <- Eh.
  destruct Hb as [Hw Hh]. field.
  assert (0 < width b * height b) by nra. lra.
Qed.

Lemma box_eq_dec (b c : Box) : {box_eq b c} + {~ box_eq b c}.
Proof.
  unfold box_eq.
  destruct (Qeq_dec (width b) (width c)), (Qeq_dec (height b) (height c));
    [left; split; assumption | right | right | right]; intros [? ?];
    contradiction.
Qed.





Lemma ratio_pos (b c : Box) :
  valid_box b -> valid_box c -> 0 < inter b c / union b c.
Proof.
  intros Hb Hc. apply Qlt_shift_div_l; [now apply union_pos|].
  rewrite Qmult_0_l. now apply inter_pos.
Qed.



(** ** Further properties of [avg_iou] *)

Lemma best_computed (b : Box) (cs : list Box) :
  valid_box b -> Forall valid_box cs -> cs <> [] ->
  (v <- iou b cs ;; np_max v) = Ok (best b cs).
Proof.
  intros Hb Hcs Hne. rewrite (iou_valid b cs Hb Hcs). unfold best. simpl.
  destruct cs as [|c l]; [contradiction | reflexivity].
Qed.

(** The best score is the score of one of the references and bounds the
    scores of all. *)
Lemma best_spec (b : Box) (cs : list Box) :
  cs <> [] ->
  (exists c, In c cs /\ best b cs = inter b c / union b c)
  /\ (forall c, In c cs -> inter b c / union b c <= best b cs).
Proof.
  intros Hne.
  assert (E : np_max (map (fun c => inter b c / union b c) cs)
              = Ok (best b cs)).
  { unfold best. destruct cs; [contradiction | reflexivity]. }
  apply np_max_spec in E. destruct E as [Hin Hub]. split.
  - apply in_map_iff in Hin. destruct Hin as [c [E Hc]]. now exists c.
  - intros c Hc. rewrite Forall_forall in Hub. apply Hub.
    apply in_map_iff. now exists c.
Qed.

Lemma bests_computed (boxes cs : list Box) :
  Forall valid_box boxes -> Forall valid_box cs -> cs <> [] ->
  mapM (fun b => v <- iou b cs ;; np_max v) boxes
  = Ok (map (fun b => best b cs) boxes).
Proof.
  intros Hall Hcs Hne.
  induction Hall as [|b l Hb _ IH]; cbn [mapM map]; [reflexivity|].
  rewrite IH, (best_computed b cs Hb Hcs Hne). reflexivity.
Qed.

Lemma avg_iou_computed (boxes cs : list Box) :
  Forall valid_box boxes -> boxes <> [] ->
  Forall valid_box cs -> cs <> [] ->
  avg_iou boxes cs
  = Ok (np_sum (map (fun b => best b cs) boxes)
        / inject_Z (Z.of_nat (List.length boxes))).
Proof.
  intros Hall Hne Hcs Hcne. unfold avg_iou.
  rewrite (bests_computed boxes cs Hall Hcs Hcne). simpl bind.
  unfold np_mean. rewrite length_map.
  destruct boxes; [contradiction | reflexivity].
Qed.

Lemma fold_plus_le (l1 l2 : list Q) : forall a1 a2 : Q,
  a1 <= a2 -> Forall2 Qle l1 l2 ->
  fold_left Qplus l1 a1 <= fold_left Qplus l2 a2.
Proof.
  intros a1 a2 Ha H. revert a1 a2 Ha.
  induction H as [|x y l1 l2 Hxy _ IH]; intros a1 a2 Ha; simpl;
    [exact Ha|].
  apply IH. lra.
Qed.

Lemma fold_plus_shift (l : list Q) : forall a : Q,
  fold_left Qplus l a == a + fold_left Qplus l 0.
Proof.
  induction l as [|x l IH]; intros a; simpl; [ring|].
  rewrite (IH (a + x)), (IH (0 + x)). ring.
Qed.

Lemma Forall2_map_same {A : Type} (f g : A -> Q) (R : Q -> Q -> Prop)
  (l : list A) :
  Forall (fun a => R (f a) (g a)) l -> Forall2 R (map f l) (map g l).
Proof.
  induction 1; simpl; constructor; assumption.
Qed.

Lemma length_pos_Q {A : Type} (l : list A) :
  l <> [] -> 0 < inject_Z (Z.of_nat (List.length l)).
Proof.
  intros Hne. change 0 with (inject_Z 0). rewrite <- Zlt_Qlt.
  destruct l; [contradiction | simpl; lia].
Qed.

Lemma np_sum_const (c : Q) {A : Type} (l : list A) :
  np_sum (map (fun _ => c) l) == c * inject_Z (Z.of_nat (List.length l)).
Proof.
  unfold np_sum. induction l as [|x l IH]; simpl fold_left.
  - simpl. ring.
  - rewrite fold_plus_shift, IH.
    change (List.length (x :: l)) with (S (List.length l)).
    rewrite Nat2Z.inj_succ. unfold Z.succ. rewrite inject_Z_plus. ring.
Qed.

(** X6. Edge cases of [avg_iou]: on no box at all the mean of an empty list
    is nan, whatever the references; on at least one box and no reference
    [np.max] of an empty array raises a ValueError, whatever the boxes. *)
Theorem avg_iou_empty_inputs (boxes clusters : list Box) :
  avg_iou [] clusters = NonFinite
  /\ (boxes <> [] -> exists msg, avg_iou boxes [] = Raise (ValueError msg)).
Proof.
  split; [reflexivity|].
  intros Hne. destruct boxes as [|b l]; [contradiction|].
  eexists. reflexivity.
Qed.

Lemma avg_iou_empty_inputs_witness :
  exists msg, avg_iou [box 0 0; box 1 2] [] = Raise (ValueError msg).
Proof.
  apply (proj2 (avg_iou_empty_inputs [box 0 0; box 1 2] [])). discriminate.
Defined.

Lemma np_sum_cons (x : Q) (l : list Q) : np_sum (x :: l) == x + np_sum l.
Proof.
  unfold np_sum. simpl. rewrite fold_plus_shift. ring.
Qed.

Lemma np_sum_upper {A : Type} (c : Q) (f : A -> Q) (l : list A) :
  Forall (fun a => f a <= c) l ->
  np_sum (map f l) <= c * inject_Z (Z.of_nat (List.length l)).
Proof.
  intros H. rewrite <- (np_sum_const c l). unfold np_sum.
  apply fold_plus_le; [apply Qle_refl|].
  now apply Forall2_map_same.
Qed.

Lemma np_sum_lower {A : Type} (c : Q) (f : A -> Q) (l : list A) :
  Forall (fun a => c <= f a) l ->
  c * inject_Z (Z.of_nat (List.length l)) <= np_sum (map f l).
Proof.
  intros H. rewrite <- (np_sum_const c l). unfold np_sum.
  apply fold_plus_le; [apply Qle_refl|].
  now apply (Forall2_map_same (fun _ => c) f Qle).
Qed.

Lemma length_cons_Q {A : Type} (x : A) (l : list A) :
  inject_Z (Z.of_nat (List.length (x :: l)))
  == 1 + inject_Z (Z.of_nat (List.length l)).
Proof.
  change (List.length (x :: l)) with (S (List.length l)).
  rewrite Nat2Z.inj_succ. unfold Z.succ. rewrite inject_Z_plus. ring.
Qed.

(** A sum of values at most 1 that reaches their number: all are 1. *)
Lemma np_sum_full {A : Type} (f : A -> Q) (l : list A) :
  Forall (fun a => f a <= 1) l ->
  np_sum (map f l) == inject_Z (Z.of_nat (List.length l)) ->
  Forall (fun a => f a == 1) l.
Proof.
  induction 1 as [|a l Ha Hl IH]; intros E; constructor.
  - cbn [map] in E. rewrite np_sum_cons, length_cons_Q in E.
    pose proof (np_sum_upper 1 f l Hl). lra.
  - apply IH. cbn [map] in E. rewrite np_sum_cons, length_cons_Q in E.
    pose proof (np_sum_upper 1 f l Hl). lra.
Qed.

Lemma best_range (b : Box) (cs : list Box) :
  valid_box b -> Forall valid_box cs -> cs <> [] ->
  0 < best b cs /\ best b cs <= 1.
Proof.
  intros Hb Hcs Hne.
  destruct (best_spec b cs Hne) as [[c [Hc ->]] _].
  rewrite Forall_forall in Hcs. split.
  - apply ratio_pos; auto.
  - apply ratio_range; auto.
Qed.

(** The mean of the best scores lies above 0 and is at most 1. *)
Lemma avg_score_bounds (boxes clusters : list Box) :
  Forall valid_box boxes -> boxes <> [] ->
  Forall valid_box clusters -> clusters <> [] ->
  0 < np_sum (map (fun b => best b clusters) boxes)
      / inject_Z (Z.of_nat (List.length boxes))
  /\ np_sum (map (fun b => best b clusters) boxes)
     / inject_Z (Z.of_nat (List.length boxes)) <= 1.
Proof.
  intros Hall Hne Hcs Hcne.
  pose proof (length_pos_Q boxes Hne) as Hn.
  assert (Hb : Forall (fun b => 0 < best b clusters /\ best b clusters <= 1)
                 boxes).
  { eapply Forall_impl; [|exact Hall]. intros b Hb. now apply best_range. }
  split.
  - apply Qlt_shift_div_l; [exact Hn|]. rewrite Qmult_0_l.
    destruct boxes as [|b l]; [contradiction|].
    inversion Hb as [|? ? [Hb0 _] Hl]; subst.
    cbn [map]. rewrite np_sum_cons.
    assert (H0 : 0 * inject_Z (Z.of_nat (List.length l))
                 <= np_sum (map (fun b => best b clusters) l)).
    { apply np_sum_lower. eapply Forall_impl; [|exact Hl].
      intros a [Ha _]. now apply Qlt_le_weak. }
    lra.
  - apply Qle_shift_div_r; [exact Hn|].
    apply np_sum_upper. eapply Forall_impl; [|exact Hb]. now intros a [_ Ha].
Qed.







(** ** Further properties of [kmeans] *)

Lemma set_row_length (l : list Box) : forall (i : nat) (b : Box),
  List.length (set_row l i b) = List.length l.
Proof.
  induction l as [|x l IH]; intros [|i] b; simpl; try reflexivity.
  now rewrite IH.
Qed.

Lemma set_row_at (l : list Box) : forall (i : nat) (b : Box),
  (i < List.length l)%nat -> nth_error (set_row l i b) i = Some b.
Proof.
  induction l as [|x l IH]; intros [|i] b H; simpl in *; try lia.
  - reflexivity.
  - apply IH. lia.
Qed.

Lemma set_row_other (l : list Box) : forall (i j : nat) (b : Box),
  i <> j -> nth_error (set_row l i b) j = nth_error l j.
Proof.
  induction l as [|x l IH]; intros [|i] [|j] b H; simpl; try reflexivity.
  - contradiction.
  - apply IH. congruence.
Qed.

Lemma update_length (dist : list Box -> result Box) (boxes : list Box)
  (a : list nat) (todo : list nat) : forall cl c',
  update dist boxes a todo cl = Ok c' -> List.length c' = List.length cl.
Proof.
  induction todo as [|j rest IH]; intros cl c'; simpl.
  - intros H. now injection H as <-.
  - destruct (dist _) as [b| |]; simpl; try discriminate.
    intros H. rewrite (IH _ _ H). apply set_row_length.
Qed.

(** After the update step every centroid of [todo] is the aggregate of the
    boxes assigned to it; the others are untouched. *)
Lemma update_spec (dist : list Box -> result Box) (boxes : list Box)
  (a : list nat) (todo : list nat) : forall cl c',
  update dist boxes a todo cl = Ok c' ->
  NoDup todo -> Forall (fun j => (j < List.length cl)%nat) todo ->
  (forall j, In j todo ->
     exists c, nth_error c' j = Some c
               /\ dist (select boxes (map (Nat.eqb j) a)) = Ok c)
  /\ (forall j, ~ In j todo -> nth_error c' j = nth_error cl j).
Proof.
  induction todo as [|j rest IH]; intros cl c' H Hnd Hlt; simpl in H.
  - injection H as <-. split; [contradiction | reflexivity].
  - destruct (dist (select boxes (map (Nat.eqb j) a))) as [b| |] eqn:Ed;
      simpl in H; try discriminate.
    inversion Hnd as [|? ? Hj Hnd']; subst.
    inversion Hlt as [|? ? Hjl Hlt']; subst.
    destruct (IH _ _ H Hnd') as [Hin Hout].
    { eapply Forall_impl; [|exact Hlt']. intros i Hi.
      now rewrite set_row_length. }
    split.
    + intros i [<- | Hi]; [|now apply Hin].
      exists b. split; [|exact Ed].
      rewrite (Hout j Hj). now apply set_row_at.
    + intros i Hi. rewrite Hout by (intros Hr; apply Hi; now right).
      apply set_row_other. intros ->. apply Hi. now left.
Qed.

Lemma take_length (boxes : list Box) (idx : list nat) (cs : list Box) :
  take boxes idx = Ok cs -> List.length cs = List.length idx.
Proof.
  intros H. symmetry. exact (Forall2_length (take_Forall2 _ _ _ H)).
Qed.

Lemma take_members (boxes : list Box) (idx : list nat) (cs : list Box) :
  take boxes idx = Ok cs -> forall c, In c cs -> In c boxes.
Proof.
  intros H c Hc.
  destruct (Forall2_In_r _ _ _ (take_Forall2 _ _ _ H) c Hc) as [i [_ Hi]].
  eapply nth_error_In; eauto.
Qed.

Section LoopShape.
Variable boxes : list Box.
Variable k : nat.
Variable dist : list Box -> result Box.

Lemma loop_length (fuel : nat) : forall clusters last cs,
  outcome (kmeans_loop fuel boxes k dist clusters last) = Some (Ok cs) ->
  List.length cs = List.length clusters.
Proof.
  induction fuel as [|fuel IH]; intros clusters last cs; [discriminate|].
  rewrite kmeans_loop_S.
  destruct (assign boxes k clusters) as [a| |]; simpl; try discriminate.
  destruct (all_equal last a); simpl.
  - intros H. now injection H as <-.
  - destruct (update dist boxes a (seq 0 k) clusters) as [c'| |] eqn:EU;
      simpl; try discriminate.
    intros H. rewrite (IH _ _ _ H). eapply update_length; eauto.
Qed.
End LoopShape.

(** X11. A run of [kmeans] that returns, returns exactly [k] centroids,
    whatever the aggregator. *)
Theorem kmeans_returns_k_centroids (fuel : nat) (boxes : list Box) (k : Z)
  (dist : list Box -> result Box) (drawn : list nat) (cs : list Box) :
  sample_ok (List.length boxes) (Z.to_nat k) drawn ->
  outcome (kmeans fuel boxes k dist drawn) = Some (Ok cs) ->
  Z.of_nat (List.length cs) = k.
Proof.
  intros [Hlen _].
  destruct (kmeans_init fuel boxes k dist drawn)
    as [[r [E Hr]] | [clusters [Hk [Et E]]]]; rewrite E.
  - intros H. simpl in H. injection H as ->. now destruct (Hr cs).
  - intros H. apply loop_length in H.
    rewrite H, (take_length _ _ _ Et), Hlen. lia.
Qed.

Lemma kmeans_returns_k_centroids_witness :
  Z.of_nat (List.length [mkBox (200 # 2) (200 # 2); mkBox (20 # 2) (20 # 2)])
  = 2%Z.
Proof.
  apply (kmeans_returns_k_centroids 5 scenario 2 np_median_axis0
           [0; 2]%nat).
  - split; [reflexivity|]. split.
    + repeat constructor; simpl; intuition lia.
    + repeat constructor.
  - reflexivity.
Defined.

Lemma mapM_Forall2 {A B : Type} (f : A -> result B) (l : list A) : forall bs,
  mapM f l = Ok bs -> Forall2 (fun a b => f a = Ok b) l bs.
Proof.
  induction l as [|a l IH]; simpl; intros bs H.
  - injection H as <-. constructor.
  - destruct (f a) as [b| |] eqn:Ea; simpl in H; try discriminate.
    destruct (mapM f l) as [bs'| |]; simpl in H; try discriminate.
    injection H as <-. constructor; [exact Ea | now apply IH].
Qed.

Lemma argmin_from_lt (l : list Q) : forall (best : Q) (besti i : nat),
  (besti < i)%nat -> (argmin_from best besti i l < i + List.length l)%nat.
Proof.
  induction l as [|x l IH]; intros best besti i H; simpl; [lia|].
  destruct (Qltb x best).
  - specialize (IH x i (S i)). lia.
  - specialize (IH best besti (S i)). lia.
Qed.

Lemma argmin_lt (l : list Q) : l <> [] -> (argmin l < List.length l)%nat.
Proof.
  destruct l as [|x l]; [contradiction|]. intros _. unfold argmin.
  pose proof (argmin_from_lt l x 0%nat 1%nat). simpl. lia.
Qed.

(** The assignment step gives every box a cluster index below [k]. *)
Lemma assign_range (boxes : list Box) (k : nat) (cs : list Box) (a : list nat) :
  assign boxes k cs = Ok a -> List.length cs = k ->
  List.length a = List.length boxes /\ Forall (fun j => (j < k)%nat) a.
Proof.
  intros H Hk. split; [eapply assign_length; eauto|].
  unfold assign in H.
  destruct (distances_of boxes cs) as [d| |] eqn:Ed; simpl in H;
    try discriminate.
  unfold np_argmin_axis1 in H.
  destruct (Nat.eqb_spec k 0) as [|Hk0]; [discriminate|].
  injection H as <-. apply Forall_map.
  apply mapM_Forall2 in Ed.
  clear -Ed Hk Hk0. induction Ed as [|b row l d Hrow _ IH]; constructor;
    [|exact IH].
  destruct (iou b cs) as [v| |] eqn:Ei; simpl in Hrow; try discriminate.
  injection Hrow as <-.
  apply iou_length in Ei.
  assert (Hlen : List.length (map (fun q => 1 - q) v) = k)
    by (rewrite length_map; congruence).
  rewrite <- Hlen. apply argmin_lt.
  intros E. rewrite E in Hlen. simpl in Hlen. congruence.
Qed.

Section LoopRange.
Variable boxes : list Box.
Variable k : nat.
Variable dist : list Box -> result Box.

Lemma loop_assignments_range (fuel : nat) : forall clusters last,
  List.length clusters = k ->
  Forall (fun a => List.length a = List.length boxes
                   /\ Forall (fun j => (j < k)%nat) a)
    (assignments (trace (kmeans_loop fuel boxes k dist clusters last))).
Proof.
  induction fuel as [|fuel IH]; intros clusters last Hk; [constructor|].
  rewrite kmeans_loop_S.
  destruct (assign boxes k clusters) as [a| |] eqn:EA; simpl;
    try constructor.
  - now apply (assign_range boxes k clusters).
  - destruct (all_equal last a); simpl; [constructor|].
    destruct (update dist boxes a (seq 0 k) clusters) as [c'| |] eqn:EU;
      simpl; try constructor.
    apply IH. rewrite (update_length _ _ _ _ _ _ EU). exact Hk.
Qed.

(** A run that returns either returns at once, on centroids whose
    assignment is the previous one, or returns centroids produced by an
    update step from the assignment they themselves give. *)
Lemma loop_fixed (fuel : nat) : forall clusters last cs,
  List.length clusters = k -> List.length last = List.length boxes ->
  outcome (kmeans_loop fuel boxes k dist clusters last) = Some (Ok cs) ->
  (updates (trace (kmeans_loop fuel boxes k dist clusters last)) = 0%nat
   /\ cs = clusters /\ assign boxes k clusters = Ok last)
  \/ (exists prev a,
         List.length prev = k
         /\ update dist boxes a (seq 0 k) prev = Ok cs
         /\ assign boxes k cs = Ok a).
Proof.
  induction fuel as [|fuel IH]; intros clusters last cs Hk Hlen;
    [discriminate|].
  rewrite kmeans_loop_S.
  destruct (assign boxes k clusters) as [a| |] eqn:EA; simpl;
    try discriminate.
  destruct (all_equal last a) eqn:EQ; simpl.
  - intros H. injection H as <-. left.
    apply all_equal_eq in EQ; [|now rewrite (assign_length _ _ _ _ EA)].
    subst a. repeat split.
  - destruct (update dist boxes a (seq 0 k) clusters) as [c'| |] eqn:EU;
      simpl; try discriminate.
    intros H. right.
    assert (Hk' : List.length c' = k)
      by (rewrite (update_length _ _ _ _ _ _ EU); exact Hk).
    destruct (IH c' a cs Hk' (assign_length _ _ _ _ EA) H)
      as [[_ [-> Ha]] | Hr]; [|exact Hr].
    exists clusters, a. repeat split; assumption.
Qed.
End LoopRange.

(** X12. In every run of [kmeans] every assignment computed gives each box
    of the dataset one cluster index, and every index is below [k]. *)
Theorem kmeans_assignments_in_range (fuel : nat) (boxes : list Box) (k : Z)
  (dist : list Box -> result Box) (drawn : list nat) :
  sample_ok (List.length boxes) (Z.to_nat k) drawn ->
  Forall (fun a => List.length a = List.length boxes
                   /\ Forall (fun j => (Z.of_nat j < k)%Z) a)
    (assignments (trace (kmeans fuel boxes k dist drawn))).
Proof.
  intros [Hlen _].
  destruct (kmeans_init fuel boxes k dist drawn)
    as [[r [E Hr]] | [clusters [Hk [Et E]]]]; rewrite E; [constructor|].
  eapply Forall_impl;
    [|apply loop_assignments_range;
      rewrite (take_length _ _ _ Et); exact Hlen].
  intros a [Ha Hr]. split; [exact Ha|].
  eapply Forall_impl; [|exact Hr]. intros j Hj. cbv beta in Hj |- *. lia.
Qed.

Lemma kmeans_assignments_in_range_witness :
  Forall (fun a => List.length a = List.length scenario
                   /\ Forall (fun j => (Z.of_nat j < 2)%Z) a)
    (assignments (trace (kmeans 5 scenario 2 np_median_axis0 [3; 0]%nat))).
Proof.
  apply (kmeans_assignments_in_range 5 scenario 2 np_median_axis0
           [3; 0]%nat).
  split; [reflexivity|]. split.
  - repeat constructor; simpl; intuition lia.
  - repeat constructor.
Defined.



(** ** The median keeps what its inputs share *)

Lemma insert_sorted_In (x y : Q) (l : list Q) :
  In y (insert_sorted x l) <-> y = x \/ In y l.
Proof.
  induction l as [|z l IH]; simpl.
  - intuition.
  - destruct (Qle_bool x z); simpl; [intuition|].
    rewrite IH. intuition.
Qed.

Lemma np_sort_In (y : Q) (l : list Q) : In y (np_sort l) <-> In y l.
Proof.
  unfold np_sort. induction l as [|x l IH]; simpl; [reflexivity|].
  rewrite insert_sorted_In, IH. intuition.
Qed.

Lemma insert_sorted_length (x : Q) (l : list Q) :
  List.length (insert_sorted x l) = S (List.length l).
Proof.
  induction l as [|z l IH]; simpl; [reflexivity|].
  destruct (Qle_bool x z); simpl; [reflexivity | now rewrite IH].
Qed.

Lemma np_sort_length (l : list Q) : List.length (np_sort l) = List.length l.
Proof.
  unfold np_sort. induction l as [|x l IH]; simpl; [reflexivity|].
  now rewrite insert_sorted_length, IH.
Qed.

Section Median.
Variable P : Q -> Prop.
Hypothesis P_mid : forall a b, P a -> P b -> P ((a + b) / 2).

Lemma sorted_nth (l : list Q) (i : nat) :
  Forall P l -> (i < List.length l)%nat -> P (nth i (np_sort l) 0).
Proof.
  intros Hall Hi. rewrite Forall_forall in Hall. apply Hall.
  apply np_sort_In. apply nth_In. now rewrite np_sort_length.
Qed.

(** The median of values that all satisfy [P] satisfies [P], when [P]
    holds of the midpoint of any two values it holds of. *)
Lemma np_median_keeps (l : list Q) :
  l <> [] -> Forall P l -> exists m, np_median l = Ok m /\ P m.
Proof.
  intros Hne Hall. unfold np_median.
  destruct l as [|x t] eqn:El; [contradiction|]. rewrite <- El in *.
  assert (Hn : (0 < List.length l)%nat) by (rewrite El; simpl; lia).
  assert (Hhalf : (List.length l / 2 < List.length l)%nat)
    by (apply Nat.div_lt; lia).
  destruct (Nat.even (List.length l)).
  - eexists. split; [reflexivity|].
    apply P_mid; apply sorted_nth; try assumption; lia.
  - eexists. split; [reflexivity|]. now apply sorted_nth.
Qed.
End Median.

Lemma select_members (boxes : list Box) : forall (mask : list bool) (b : Box),
  In b (select boxes mask) -> In b boxes.
Proof.
  induction boxes as [|x l IH]; intros [|m mask] b; simpl; try contradiction.
  destruct m; simpl; [intros [-> | H] | intros H]; eauto.
Qed.

Lemma set_row_Forall (P : Box -> Prop) (l : list Box) :
  forall (i : nat) (b : Box),
    Forall P l -> P b -> Forall P (set_row l i b).
Proof.
  induction l as [|x l IH]; intros [|i] b Hl Hb; simpl; try assumption;
    inversion Hl; subst; constructor; auto.
Qed.

Section MedianCentroids.
Variables Pw Ph : Q -> Prop.
Hypothesis Pw_mid : forall a b, Pw a -> Pw b -> Pw ((a + b) / 2).
Hypothesis Ph_mid : forall a b, Ph a -> Ph b -> Ph ((a + b) / 2).
Variable boxes : list Box.
Variable k : nat.

Hypothesis Hboxes : Forall (within Pw Ph) boxes.

Lemma median_axis0_keeps (rows : list Box) :
  Forall (within Pw Ph) rows ->
  match np_median_axis0 rows with
  | Ok b => within Pw Ph b
  | Raise _ => False
  | NonFinite => rows = []
  end.
Proof.
  intros Hall. destruct rows as [|r0 rest]; [reflexivity|].
  unfold np_median_axis0.
  destruct (np_median_keeps Pw Pw_mid (map width (r0 :: rest)))
    as [w [Ew Hw]]; [discriminate | |].
  { apply Forall_map. eapply Forall_impl; [|exact Hall]. now intros b [? ?]. }
  destruct (np_median_keeps Ph Ph_mid (map height (r0 :: rest)))
    as [h [Eh Hh]]; [discriminate | |].
  { apply Forall_map. eapply Forall_impl; [|exact Hall]. now intros b [? ?]. }
  rewrite Ew, Eh. simpl. split; assumption.
Qed.

Lemma update_median_keeps (a : list nat) (todo : list nat) :
  forall cl, Forall (within Pw Ph) cl ->
  match update np_median_axis0 boxes a todo cl with
  | Ok c' => Forall (within Pw Ph) c'
  | Raise _ => False
  | NonFinite => True
  end.
Proof.
  induction todo as [|j rest IH]; intros cl Hcl; simpl; [exact Hcl|].
  pose proof (median_axis0_keeps (select boxes (map (Nat.eqb j) a))) as Hm.
  destruct (np_median_axis0 (select boxes (map (Nat.eqb j) a))) as [b| |];
    simpl; trivial.
  - apply IH. apply set_row_Forall; [exact Hcl|]. apply Hm.
    apply Forall_forall. intros x Hx. rewrite Forall_forall in Hboxes.
    apply Hboxes. eapply select_members; eauto.
  - apply Hm. apply Forall_forall. intros x Hx.
    rewrite Forall_forall in Hboxes.
    apply Hboxes. eapply select_members; eauto.
Qed.

Lemma loop_median_keeps (fuel : nat) : forall clusters last cs,
  Forall (within Pw Ph) clusters ->
  outcome (kmeans_loop fuel boxes k np_median_axis0 clusters last)
  = Some (Ok cs) ->
  Forall (within Pw Ph) cs.
Proof.
  induction fuel as [|fuel IH]; intros clusters last cs Hcl; [discriminate|].
  rewrite kmeans_loop_S.
  destruct (assign boxes k clusters) as [a| |]; simpl; try discriminate.
  destruct (all_equal last a); simpl.
  - intros H. now injection H as <-.
  - pose proof (update_median_keeps a (seq 0 k) clusters Hcl) as Hu.
    destruct (update np_median_axis0 boxes a (seq 0 k) clusters) as [c'| |];
      simpl; try discriminate.
    intros H. eapply IH; eauto.
Qed.
End MedianCentroids.

Lemma sample_size (a size : nat) (drawn : list nat) :
  sample_ok a size drawn -> (size <= a)%nat.
Proof.
  intros [Hlen [Hnd Hlt]].
  assert (H : (List.length drawn <= List.length (seq 0 a))%nat).
  { apply NoDup_incl_length; [exact Hnd|].
    intros i Hi. rewrite Forall_forall in Hlt. apply in_seq.
    specialize (Hlt i Hi). lia. }
  rewrite length_seq in H. lia.
Qed.

(** With at least one cluster and a proper sample the loop is entered, on
    centroids taken from the dataset. *)
Lemma kmeans_enters_loop (fuel : nat) (boxes : list Box) (k : Z)
  (dist : list Box -> result Box) (drawn : list nat) :
  (1 <= k)%Z -> sample_ok (List.length boxes) (Z.to_nat k) drawn ->
  exists clusters,
    take boxes drawn = Ok clusters
    /\ List.length clusters = Z.to_nat k
    /\ boxes <> []
    /\ (forall c, In c clusters -> In c boxes)
    /\ kmeans fuel boxes k dist drawn
       = kmeans_loop fuel boxes (Z.to_nat k) dist clusters
           (repeat 0%nat (List.length boxes)).
Proof.
  intros Hk Hs. pose proof (sample_size _ _ _ Hs) as Hle.
  destruct Hs as [Hlen [_ Hlt]].
  destruct (take_ok boxes drawn Hlt) as [cs Ecs].
  exists cs. split; [exact Ecs|]. split; [|split; [|split]].
  - rewrite (take_length _ _ _ Ecs). exact Hlen.
  - intros ->. simpl in Hle. lia.
  - now apply take_members with (idx := drawn).
  - unfold kmeans, np_random_choice.
    destruct (Z.ltb_spec k 0); [lia|].
    destruct (Nat.eqb_spec (List.length boxes) 0); [lia|]. simpl andb.
    cbv iota.
    destruct (Nat.ltb_spec (List.length boxes) (Z.to_nat k)); [lia|].
    simpl bind. rewrite Ecs. reflexivity.
Qed.

Lemma pos_mid (a b : Q) : 0 < a -> 0 < b -> 0 < (a + b) / 2.
Proof.
  intros Ha Hb. apply Qlt_shift_div_l; [reflexivity | lra].
Qed.

Lemma between_mid (lo hi a b : Q) :
  lo <= a /\ a <= hi -> lo <= b /\ b <= hi ->
  lo <= (a + b) / 2 /\ (a + b) / 2 <= hi.
Proof.
  intros [Ha1 Ha2] [Hb1 Hb2]. split.
  - apply Qle_shift_div_l; [reflexivity | lra].
  - apply Qle_shift_div_r; [reflexivity | lra].
Qed.

Lemma assign_valid (boxes : list Box) (k : nat) (clusters : list Box) :
  Forall valid_box boxes -> Forall valid_box clusters -> k <> 0%nat ->
  assign boxes k clusters
  = Ok (map (fun b => argmin (distance_row clusters b)) boxes).
Proof.
  intros Hall Hcs Hk. unfold assign.
  rewrite (distances_valid boxes clusters Hall Hcs). simpl bind.
  unfold np_argmin_axis1.
  destruct (Nat.eqb_spec k 0); [contradiction|]. now rewrite map_map.
Qed.

Lemma loop_valid_no_raise (boxes : list Box) (k : nat) (fuel : nat) :
  Forall valid_box boxes -> k <> 0%nat ->
  forall clusters last e,
    Forall valid_box clusters ->
    outcome (kmeans_loop fuel boxes k np_median_axis0 clusters last)
    <> Some (Raise e).
Proof.
  intros Hall Hk.
  induction fuel as [|fuel IH]; intros clusters last e Hcs; [discriminate|].
  rewrite kmeans_loop_S, (assign_valid boxes k clusters Hall Hcs Hk).
  cbv beta iota delta [lift emit outcome].
  destruct (all_equal last _); [discriminate|].
  pose proof (update_median_keeps (Qlt 0) (Qlt 0) pos_mid pos_mid boxes Hall
                (map (fun b => argmin (distance_row clusters b)) boxes)
                (seq 0 k) clusters Hcs) as Hu.
  destruct (update np_median_axis0 boxes _ (seq 0 k) clusters) as [c'| |];
    [|contradiction | discriminate].
  apply IH. exact Hu.
Qed.







Lemma box_eq_trans (a b c : Box) : box_eq a b -> box_eq b c -> box_eq a c.
Proof.
  intros [H1 H2] [H3 H4]. split; [now rewrite H1 | now rewrite H2].
Qed.

Lemma box_eq_valid (a b : Box) : box_eq a b -> valid_box b -> valid_box a.
Proof.
  intros [H1 H2] [H3 H4]. split; [now rewrite H1 | now rewrite H2].
Qed.

(** Against centroids all equal to the box, the nearest is the first. *)
Lemma nearest_all_equal (x : Box) (clusters : list Box) :
  valid_box x -> Forall (box_eq x) clusters ->
  argmin (distance_row clusters x) = 0%nat.
Proof.
  intros Hx Hall. unfold distance_row.
  destruct clusters as [|c l]; [reflexivity|].
  inversion Hall as [|? ? Hc Hl]; subst. cbn [map]. unfold argmin.
  apply argmin_from_keep. apply Forall_map, Forall_map.
  eapply Forall_impl; [|exact Hl]. intros c' Hc'. cbv beta.
  rewrite (ratio_box_eq x c Hx Hc), (ratio_box_eq x c' Hx Hc').
  apply Qle_refl.
Qed.

Lemma map_const_repeat {A B : Type} (f : A -> B) (v : B) (l : list A) :
  Forall (fun a => f a = v) l -> map f l = repeat v (List.length l).
Proof.
  induction 1 as [|a l Ha _ IH]; simpl; [reflexivity|].
  now rewrite Ha, IH.
Qed.

(** X17. When all the rows of the dataset are the same box of the data
    model, a run of [kmeans] with at least one cluster assigns every box
    to cluster 0 in its first iteration and returns at once, with every
    centroid equal to that box and without an update step, whatever the
    aggregator. *)
Theorem kmeans_identical_boxes (boxes : list Box) (b : Box) (k : Z)
  (dist : list Box -> result Box) (drawn : list nat) (fuel : nat) :
  valid_box b -> Forall (fun x => box_eq x b) boxes ->
  (1 <= k)%Z -> sample_ok (List.length boxes) (Z.to_nat k) drawn ->
  exists clusters,
    take boxes drawn = Ok clusters
    /\ Forall (fun c => box_eq c b) clusters
    /\ kmeans (S fuel) boxes k dist drawn
       = mkRun [EvIter; EvAssign (repeat 0%nat (List.length boxes))]
           (Some (Ok clusters)).
Proof.
  intros Hb Hall Hk Hs.
  destruct (kmeans_enters_loop (S fuel) boxes k dist drawn Hk Hs)
    as [clusters [Et [Hlen [_ [Hin ->]]]]].
  assert (Hcl : Forall (fun c => box_eq c b) clusters).
  { rewrite Forall_forall in Hall |- *. auto. }
  exists clusters. split; [exact Et|]. split; [exact Hcl|].
  assert (Hvb : Forall valid_box boxes).
  { eapply Forall_impl; [|exact Hall]. intros x Hx.
    now apply (box_eq_valid x b). }
  assert (Hvc : Forall valid_box clusters).
  { eapply Forall_impl; [|exact Hcl]. intros x Hx.
    now apply (box_eq_valid x b). }
  rewrite kmeans_loop_S, (assign_valid boxes (Z.to_nat k) clusters Hvb Hvc)
    by lia.
  rewrite (map_const_repeat _ 0%nat boxes).
  - unfold lift. rewrite all_equal_refl. reflexivity.
  - rewrite Forall_forall in Hall, Hvb |- *. intros x Hx.
    apply nearest_all_equal; [now apply Hvb|].
    rewrite Forall_forall in Hcl |- *. intros c Hc.
    apply (box_eq_trans x b c); [now apply Hall|].
    apply box_eq_sym. now apply Hcl.
Qed.

Lemma kmeans_identical_boxes_witness :
  exists clusters,
    take [box 3 4; mkBox (6 # 2) 4; box 3 4] [2; 0]%nat = Ok clusters
    /\ Forall (fun c => box_eq c (box 3 4)) clusters
    /\ kmeans 1 [box 3 4; mkBox (6 # 2) 4; box 3 4] 2 np_median_axis0
         [2; 0]%nat
       = mkRun [EvIter; EvAssign (repeat 0%nat 3)] (Some (Ok clusters)).
Proof.
  apply (kmeans_identical_boxes [box 3 4; mkBox (6 # 2) 4; box 3 4]
           (box 3 4) 2 np_median_axis0 [2; 0]%nat 0).
  - split; reflexivity.
  - repeat constructor.
  - lia.
  - split; [reflexivity|]. split.
    + repeat constructor; simpl; intuition lia.
    + repeat constructor.
Defined.

(** ** [translate_boxes] *)

Lemma translate_boxes_rows (boxes : list Row4) :
  translate_boxes boxes
  = map (fun r => mkBox (Qabs (col2 r - col0 r)) (Qabs (col3 r - col1 r)))
      boxes.
Proof.
  unfold translate_boxes. rewrite map_map. reflexivity.
Qed.

Lemma Qabs_pos_iff (x y : Q) : 0 < Qabs (x - y) <-> ~ y == x.
Proof.
  split.
  - intros H E. rewrite E in H.
    assert (E0 : x - x == 0) by ring. rewrite E0 in H. discriminate H.
  - intros H. apply Qabs_case; intros Hc.
    + apply Qnot_le_lt. intros Hle. apply H. lra.
    + apply Qnot_le_lt. intros Hle. apply H. lra.
Qed.


(** X20. The boxes [translate_boxes] returns do not depend on where the
    rows lie nor on which corner comes first: moving every row by the same
    offset, or exchanging the two corners of every row, gives equal
    boxes. *)
Theorem translate_boxes_invariant (dx dy : Q) (boxes : list Row4) :
  Forall2 box_eq (translate_boxes (map (shift dx dy) boxes))
    (translate_boxes boxes)
  /\ Forall2 box_eq (translate_boxes (map swap_corners boxes))
       (translate_boxes boxes).
Proof.
  rewrite !translate_boxes_rows, !map_map. split.
  - induction boxes as [|r l IH]; cbn [map]; constructor; [|exact IH].
    unfold shift. split; cbn [width height col0 col1 col2 col3];
      apply Qabs_wd; ring.
  - induction boxes as [|r l IH]; cbn [map]; constructor; [|exact IH].
    unfold swap_corners. split; cbn [width height col0 col1 col2 col3];
      rewrite Qabs_Qminus; reflexivity.
Qed.

(** ** [iou] on boxes with no negative side *)

Lemma min_zero_nonneg (x y : Q) :
  0 <= x -> 0 <= y -> (Qmin x y == 0 <-> x == 0 \/ y == 0).
Proof.
  intros Hx Hy. destruct (Q.min_spec x y) as [[Hlt E] | [Hle E]]; rewrite E.
  - split; [now left | intros [H | H]; [exact H | lra]].
  - split; [now right | intros [H | H]; [lra | exact H]].
Qed.

Lemma degenerate_nonneg (b c : Box) :
  0 <= width b -> 0 <= height b -> 0 <= width c -> 0 <= height c ->
  (degenerate b c = false <-> valid_box b /\ valid_box c).
Proof.
  intros Hwb Hhb Hwc Hhc. unfold degenerate, valid_box.
  rewrite orb_false_iff. split.
  - intros [E1 E2]. apply Qeq_bool_neq in E1. apply Qeq_bool_neq in E2.
    rewrite min_zero_nonneg in E1, E2 by assumption.
    repeat split; apply Qnot_le_lt; intros H;
      [apply E1; right | apply E2; right | apply E1; left | apply E2; left];
      lra.
  - intros [[H1 H2] [H3 H4]]. split.
    + destruct (Qeq_bool _ 0) eqn:E; [|reflexivity].
      apply Qeq_bool_eq, min_zero_nonneg in E; try assumption.
      destruct E; lra.
    + destruct (Qeq_bool _ 0) eqn:E; [|reflexivity].
      apply Qeq_bool_eq, min_zero_nonneg in E; try assumption.
      destruct E; lra.
Qed.

(** On boxes with no negative side [iou] either raises or returns the
    scores of boxes of the data model. *)
Lemma iou_nonneg (b : Box) (clusters : list Box) :
  0 <= width b /\ 0 <= height b ->
  Forall (fun c => 0 <= width c /\ 0 <= height c) clusters ->
  iou b clusters
  = if existsb (degenerate b) clusters then Raise no_area
    else Ok (map (fun c => inter b c / union b c) clusters).
Proof.
  intros [Hwb Hhb] Hcs. rewrite iou_pointwise.
  destruct (existsb (degenerate b) clusters) eqn:E; [reflexivity|].
  apply np_divide_map. apply Forall_forall. intros c Hc.
  rewrite Forall_forall in Hcs. destruct (Hcs c Hc) as [Hwc Hhc].
  assert (Ed : degenerate b c = false).
  { destruct (degenerate b c) eqn:Ed; [|reflexivity].
    assert (existsb (degenerate b) clusters = true)
      by (apply existsb_exists; now exists c).
    congruence. }
  apply degenerate_nonneg in Ed; try assumption. destruct Ed as [Hb Hv].
  intros E0. pose proof (union_pos b c Hb Hv) as P.
  rewrite E0 in P. discriminate P.
Qed.

Lemma translated_row (b : Row4) :
  delete_01 (translate_row b)
  = mkBox (Qabs (col2 b - col0 b)) (Qabs (col3 b - col1 b)).
Proof. reflexivity. Qed.

Lemma translated_valid (b : Row4) :
  valid_box (delete_01 (translate_row b)) <-> ~ flat b.
Proof.
  rewrite translated_row. unfold valid_box, flat. cbn [width height].
  rewrite !Qabs_pos_iff. tauto.
Qed.

Lemma translated_nonneg (b : Row4) :
  0 <= width (delete_01 (translate_row b))
  /\ 0 <= height (delete_01 (translate_row b)).
Proof.
  rewrite translated_row. cbn [width height]. split; apply Qabs_nonneg.
Qed.



(** ** [load_dataset] *)

Lemma load_object_kept (category_id : string) (dataset : list (Z * Z))
  (obj : object) :
  load_object category_id dataset obj
  = dataset ++ (if kept category_id obj then [extent obj] else []).
Proof.
  unfold load_object, kept, extent, area.
  destruct (String.eqb category_id "s");
    [destruct (_ && _)%bool; [reflexivity | now rewrite app_nil_r]|].
  destruct (String.eqb category_id "l");
    [destruct (_ <? _)%Z; [reflexivity | now rewrite app_nil_r]|].
  destruct (String.eqb category_id "m");
    [destruct (_ && _)%bool; [reflexivity | now rewrite app_nil_r]|].
  reflexivity.
Qed.

Lemma load_file_kept (category_id : string) (objs : list object) :
  forall dataset,
    fold_left (load_object category_id) objs dataset
    = dataset ++ map extent (filter (kept category_id) objs).
Proof.
  induction objs as [|o l IH]; intros dataset; simpl.
  - now rewrite app_nil_r.
  - rewrite IH, load_object_kept.
    destruct (kept category_id o); simpl.
    + now rewrite <- app_assoc.
    + now rewrite app_nil_r.
Qed.

(** The loaded dataset: the extents of the objects kept, in the order of
    the files and of the objects in each file. *)
Lemma load_dataset_kept (files : list (list object)) (category_id : string) :
  load_dataset files category_id
  = map extent (filter (kept category_id) (List.concat files)).
Proof.
  unfold load_dataset.
  assert (H : forall dataset,
             fold_left
               (fun dataset objs =>
                  fold_left (load_object category_id) objs dataset)
               files dataset
             = dataset
               ++ map extent (filter (kept category_id) (List.concat files))).
  { induction files as [|f l IH]; intros dataset; simpl.
    - now rewrite app_nil_r.
    - rewrite IH, load_file_kept, filter_app, map_app, app_assoc.
      reflexivity. }
  apply H.
Qed.



(** X23. The rows [load_dataset] loads under 's', 'm' and 'l' have their
    area in the class asked for: above 0 and at most 32*32 for 's', above
    32*32 and at most 96*96 for 'm', above 96*96 for 'l'; so no loaded row
    has a zero side. *)
Theorem load_dataset_size_classes (files : list (list object)) :
  Forall (fun r => (0 < fst r * snd r <= 1024)%Z) (load_dataset files "s")
  /\ Forall (fun r => (1024 < fst r * snd r <= 9216)%Z)
       (load_dataset files "m")
  /\ Forall (fun r => (9216 < fst r * snd r)%Z) (load_dataset files "l")
  /\ (forall c, c = "s"%string \/ c = "m"%string \/ c = "l"%string ->
        Forall (fun r => fst r <> 0%Z /\ snd r <> 0%Z) (load_dataset files c)).
Proof.
  assert (Hs : Forall (fun r => (0 < fst r * snd r <= 1024)%Z)
                 (load_dataset files "s")).
  { rewrite load_dataset_kept. apply Forall_map, Forall_forall.
    intros o Ho. apply filter_In in Ho. destruct Ho as [_ Ho].
    unfold kept in Ho. simpl String.eqb in Ho. cbv iota in Ho.
    apply andb_true_iff in Ho. unfold extent, area, gt_small in *.
    simpl fst. simpl snd. lia. }
  assert (Hm : Forall (fun r => (1024 < fst r * snd r <= 9216)%Z)
                 (load_dataset files "m")).
  { rewrite load_dataset_kept. apply Forall_map, Forall_forall.
    intros o Ho. apply filter_In in Ho. destruct Ho as [_ Ho].
    unfold kept in Ho. simpl String.eqb in Ho. cbv iota in Ho.
    apply andb_true_iff in Ho. unfold extent, area, gt_small, gt_mid in *.
    simpl fst. simpl snd. lia. }
  assert (Hl : Forall (fun r => (9216 < fst r * snd r)%Z)
                 (load_dataset files "l")).
  { rewrite load_dataset_kept. apply Forall_map, Forall_forall.
    intros o Ho. apply filter_In in Ho. destruct Ho as [_ Ho].
    unfold kept in Ho. simpl String.eqb in Ho. cbv iota in Ho.
    unfold extent, area, gt_mid in *. simpl fst. simpl snd. lia. }
  repeat split; try assumption.
  intros c [-> | [-> | ->]];
    [eapply Forall_impl; [|exact Hs] | eapply Forall_impl; [|exact Hm]
     | eapply Forall_impl; [|exact Hl]];
    intros r Hr; cbv beta in Hr; nia.
Qed.

Lemma load_dataset_size_classes_witness :
  Forall (fun r => fst r <> 0%Z /\ snd r <> 0%Z)
    (load_dataset [[mkObject 0 0 0 5; mkObject 50 50 10 10]] "m").
Proof.
  apply (proj2 (proj2 (proj2 (load_dataset_size_classes
                                [[mkObject 0 0 0 5; mkObject 50 50 10 10]])))).
  right. left. reflexivity.
Defined.

Lemma kept_classes (o : object) :
  kept "s" o = ((0 <? area o) && (area o <=? gt_small))%Z
  /\ kept "m" o = ((gt_small <? area o) && (area o <=? gt_mid))%Z
  /\ kept "l" o = (gt_mid <? area o)%Z.
Proof. repeat split. Qed.


Lemma row_box_valid (r : Z * Z) :
  (0 < fst r)%Z -> (0 < snd r)%Z -> valid_box (row_box r).
Proof.
  intros Hw Hh. unfold valid_box, row_box, box. cbn [width height].
  change 0 with (inject_Z 0). rewrite <- !Zlt_Qlt. split; assumption.
Qed.



(** ** [avg_iou] and the order of its arguments *)

Lemma best_permutation (b : Box) (cs cs' : list Box) :
  cs <> [] -> Permutation cs cs' -> best b cs == best b cs'.
Proof.
  intros Hne Hp.
  assert (Hne' : cs' <> []).
  { intros ->. apply Permutation_sym, Permutation_nil in Hp. contradiction. }
  destruct (best_spec b cs Hne) as [[c [Hc Ec]] Hub].
  destruct (best_spec b cs' Hne') as [[c' [Hc' Ec']] Hub'].
  apply Qle_antisym.
  - rewrite Ec. apply Hub'. apply (Permutation_in c Hp Hc).
  - rewrite Ec'. apply Hub.
    apply (Permutation_in c' (Permutation_sym Hp) Hc').
Qed.

Lemma np_sum_permutation (l l' : list Q) :
  Permutation l l' -> np_sum l == np_sum l'.
Proof.
  induction 1 as [|x l l' _ IH|x y l|l l' l'' _ IH1 _ IH2].
  - reflexivity.
  - rewrite !np_sum_cons, IH. reflexivity.
  - rewrite !np_sum_cons. ring.
  - now rewrite IH1.
Qed.

Lemma np_sum_pointwise {A : Type} (f g : A -> Q) (l : list A) :
  (forall a, f a == g a) -> np_sum (map f l) == np_sum (map g l).
Proof.
  intros H. induction l as [|a l IH]; [reflexivity|].
  cbn [map]. rewrite !np_sum_cons, IH, (H a). reflexivity.
Qed.



(** ** [compute_anchor_para] *)

Lemma anchor_loop_rows (base_factor : Q) (rows : list (Q * Q)) :
  ~ base_factor == 0 -> Forall (fun r => ~ fst r == 0) rows ->
  forall return_scale return_ratio,
    anchor_loop base_factor rows return_scale return_ratio
    = Anchors
        (return_scale ++ map (fun r => fst r * 1 / base_factor) rows)
        (return_ratio ++ map (fun r => (1, snd r * 1 / fst r)) rows).
Proof.
  intros Hb Hrows. induction Hrows as [|[h w] l Hh _ IH];
    intros sc rt; simpl.
  - now rewrite !app_nil_r.
  - cbn [fst] in Hh.
    destruct (Qeq_bool base_factor 0) eqn:E1;
      [apply Qeq_bool_eq in E1; contradiction|].
    destruct (Qeq_bool h 0) eqn:E2;
      [apply Qeq_bool_eq in E2; contradiction|].
    simpl. rewrite IH, <- !app_assoc. reflexivity.
Qed.



(** ** [kmeans] and the unit of length *)

Section Scaling.
Variable s : Q.
Hypothesis Hs : 0 < s.

Lemma inter_related (b' b c' c : Box) :
  box_eq b' (scale s b) -> box_eq c' (scale s c) ->
  inter b' c' == s * s * inter b c.
Proof.
  intros [Hbw Hbh] [Hcw Hch]. unfold scale in *. cbn [width height] in *.
  unfold inter. rewrite Hbw, Hbh, Hcw, Hch, !Qmin_scale by exact Hs. ring.
Qed.

Lemma union_related (b' b c' c : Box) :
  box_eq b' (scale s b) -> box_eq c' (scale s c) ->
  union b' c' == s * s * union b c.
Proof.
  intros Hb Hc. unfold union. rewrite (inter_related b' b c' c Hb Hc).
  destruct Hb as [Hbw Hbh], Hc as [Hcw Hch].
  unfold scale in *. cbn [width height] in *.
  rewrite Hbw, Hbh, Hcw, Hch. ring.
Qed.

Lemma degenerate_related (b' b c' c : Box) :
  box_eq b' (scale s b) -> box_eq c' (scale s c) ->
  degenerate b' c' = degenerate b c.
Proof.
  intros [Hbw Hbh] [Hcw Hch]. unfold scale in *. cbn [width height] in *.
  unfold degenerate. f_equal; apply Qeq_bool_compat.
  - rewrite Hbw, Hcw, Qmin_scale by exact Hs. now apply scale_zero_iff.
  - rewrite Hbh, Hch, Qmin_scale by exact Hs. now apply scale_zero_iff.
Qed.

(** [iou] of a scaled box against scaled references: the same error or the
    same values. *)
Lemma iou_related (b' b : Box) (cs' cs : list Box) :
  box_eq b' (scale s b) -> scaled s cs' cs ->
  same_scores (iou b' cs') (iou b cs).
Proof.
  intros Hb Hcs. rewrite !iou_pointwise.
  assert (E : existsb (degenerate b') cs' = existsb (degenerate b) cs).
  { induction Hcs as [|c' c l' l Hc _ IH]; simpl; [reflexivity|].
    now rewrite IH, (degenerate_related b' b c' c Hb Hc). }
  rewrite E. destruct (existsb (degenerate b) cs); [reflexivity|]. clear E.
  induction Hcs as [|c' c l' l Hc _ IH]; simpl; [constructor|].
  assert (Ez : Qeq_bool (union b' c') 0 = Qeq_bool (union b c) 0).
  { apply Qeq_bool_compat. rewrite (union_related b' b c' c Hb Hc).
    assert (0 < s * s) by nra. now apply scale_zero_iff. }
  rewrite Ez. destruct (Qeq_bool (union b c) 0) eqn:Eu; [exact I|].
  destruct (np_divide (map (inter b') l') (map (union b') l')) as [v1| |],
    (np_divide (map (inter b) l) (map (union b) l)) as [v2| |]; simpl in *;
    try contradiction; try discriminate; trivial.
  constructor; [|exact IH].
  rewrite (inter_related b' b c' c Hb Hc), (union_related b' b c' c Hb Hc).
  field. split.
  - intros E0. apply Qeq_bool_neq in Eu. contradiction.
  - intros E0. rewrite E0 in Hs. discriminate Hs.
Qed.

Lemma Qltb_compat (x' x y' y : Q) : x' == x -> y' == y -> Qltb x' y' = Qltb x y.
Proof.
  intros Hx Hy. unfold Qltb. f_equal. now apply Qleb_comp.
Qed.

Lemma argmin_from_compat (l' l : list Q) :
  Forall2 Qeq l' l ->
  forall best' best besti i,
    best' == best ->
    argmin_from best' besti i l' = argmin_from best besti i l.
Proof.
  induction 1 as [|x' x l' l Hx _ IH]; intros best' best besti i Hb; simpl;
    [reflexivity|].
  rewrite (Qltb_compat x' x best' best Hx Hb).
  destruct (Qltb x best); now apply IH.
Qed.

Lemma argmin_compat (l' l : list Q) :
  Forall2 Qeq l' l -> argmin l' = argmin l.
Proof.
  intros H. destruct H as [|x' x l' l Hx Hl]; [reflexivity|].
  unfold argmin. now apply argmin_from_compat.
Qed.

Lemma assign_related (boxes : list Box) (k : nat) (cs' cs : list Box) :
  scaled s cs' cs ->
  assign (map (scale s) boxes) k cs' = assign boxes k cs.
Proof.
  intros Hcs. unfold assign, distances_of.
  assert (H : match mapM (fun b => v <- iou b cs' ;;
                                   Ok (map (fun q => 1 - q) v))
                      (map (scale s) boxes),
                    mapM (fun b => v <- iou b cs ;;
                                   Ok (map (fun q => 1 - q) v)) boxes with
              | Ok d', Ok d => map argmin d' = map argmin d
              | Raise e', Raise e => e' = e
              | NonFinite, NonFinite => True
              | _, _ => False
              end).
  { induction boxes as [|b l IH]; cbn [map mapM]; [reflexivity|].
    pose proof (iou_related (scale s b) b cs' cs (box_eq_refl _) Hcs) as Hi.
    destruct (iou (scale s b) cs') as [v'| |], (iou b cs) as [v| |];
      simpl in Hi; try contradiction; simpl bind; trivial.
    destruct (mapM _ (map (scale s) l)) as [d'| |],
      (mapM _ l) as [d| |]; simpl in *; try contradiction; trivial.
    f_equal; [|exact IH]. apply argmin_compat.
    clear -Hi. induction Hi; simpl; constructor; [|assumption].
    now apply Qplus_comp; [reflexivity | apply Qopp_comp]. }
  destruct (mapM _ (map (scale s) boxes)) as [d'| |],
    (mapM _ boxes) as [d| |]; simpl in *; try contradiction;
    try congruence; trivial.
  unfold np_argmin_axis1. destruct (k =? 0)%nat; [reflexivity|].
  now rewrite H.
Qed.

Lemma Qle_bool_scale (x y : Q) : Qle_bool (s * x) (s * y) = Qle_bool x y.
Proof.
  destruct (Qle_bool x y) eqn:E.
  - apply Qle_bool_iff. apply Qle_bool_iff in E. now apply Qmult_le_l.
  - destruct (Qle_bool (s * x) (s * y)) eqn:E'; [|reflexivity].
    apply Qle_bool_iff in E'. apply Qmult_le_l in E'; [|exact Hs].
    apply Qle_bool_iff in E'. congruence.
Qed.

Lemma insert_sorted_scale (x : Q) (l : list Q) :
  insert_sorted (s * x) (map (Qmult s) l)
  = map (Qmult s) (insert_sorted x l).
Proof.
  induction l as [|y l IH]; simpl; [reflexivity|].
  rewrite Qle_bool_scale. destruct (Qle_bool x y); simpl; [reflexivity|].
  now rewrite IH.
Qed.

Lemma np_sort_scale (l : list Q) :
  np_sort (map (Qmult s) l) = map (Qmult s) (np_sort l).
Proof.
  unfold np_sort. induction l as [|x l IH]; simpl; [reflexivity|].
  now rewrite IH, insert_sorted_scale.
Qed.

Lemma nth_scale (l : list Q) (i : nat) :
  (i < List.length l)%nat ->
  nth i (map (Qmult s) l) 0 = s * nth i l 0.
Proof.
  intros Hi. rewrite (nth_indep _ 0 (s * 0)) by (now rewrite length_map).
  apply (map_nth (Qmult s)).
Qed.

Lemma np_median_nonempty (l : list Q) :
  l <> [] ->
  np_median l
  = if Nat.even (List.length l)
    then Ok ((nth (List.length l / 2 - 1) (np_sort l) 0
              + nth (List.length l / 2) (np_sort l) 0) / 2)
    else Ok (nth (List.length l / 2) (np_sort l) 0).
Proof.
  destruct l; [contradiction | reflexivity].
Qed.

(** The median of the scaled values is the scaled median. *)
Lemma np_median_scale (l : list Q) :
  match np_median (map (Qmult s) l), np_median l with
  | Ok m', Ok m => m' == s * m
  | NonFinite, NonFinite => True
  | _, _ => False
  end.
Proof.
  destruct l as [|x t] eqn:El; [exact I|]. rewrite <- El.
  assert (Hne : l <> []) by (rewrite El; discriminate). clear El x t.
  rewrite (np_median_nonempty l Hne), np_median_nonempty
    by (destruct l; [contradiction | discriminate]).
  rewrite length_map, np_sort_scale.
  assert (Hn : (0 < List.length l)%nat)
    by (destruct l; [contradiction | simpl; lia]).
  assert (Hhalf : (List.length l / 2 < List.length l)%nat)
    by (apply Nat.div_lt; lia).
  destruct (Nat.even (List.length l)).
  - rewrite !nth_scale by (rewrite np_sort_length; lia). field.
  - rewrite nth_scale by (now rewrite np_sort_length). reflexivity.
Qed.

Lemma np_median_axis0_scale (rows : list Box) :
  match np_median_axis0 (map (scale s) rows), np_median_axis0 rows with
  | Ok b', Ok b => box_eq b' (scale s b)
  | NonFinite, NonFinite => True
  | _, _ => False
  end.
Proof.
  unfold np_median_axis0. rewrite !map_map.
  change (map (fun x => width (scale s x)) rows)
    with (map (fun x => s * width x) rows).
  change (map (fun x => height (scale s x)) rows)
    with (map (fun x => s * height x) rows).
  rewrite <- (map_map width (Qmult s)), <- (map_map height (Qmult s)).
  pose proof (np_median_scale (map width rows)) as Hw.
  pose proof (np_median_scale (map height rows)) as Hh.
  destruct (np_median (map (Qmult s) (map width rows))) as [w'| |],
    (np_median (map width rows)) as [w| |]; try contradiction; simpl;
    trivial.
  destruct (np_median (map (Qmult s) (map height rows))) as [h'| |],
    (np_median (map height rows)) as [h| |]; try contradiction; simpl;
    trivial.
  split; assumption.
Qed.

Lemma select_scale (boxes : list Box) : forall mask,
  select (map (scale s) boxes) mask = map (scale s) (select boxes mask).
Proof.
  induction boxes as [|b l IH]; intros [|m mask]; simpl; try reflexivity.
  destruct m; simpl; now rewrite IH.
Qed.

Lemma set_row_scaled (cl' cl : list Box) :
  scaled s cl' cl ->
  forall j b' b, box_eq b' (scale s b) ->
                 scaled s (set_row cl' j b') (set_row cl j b).
Proof.
  unfold scaled.
  induction 1 as [|c' c l' l Hc Hl IH]; intros [|j] b' b Hb; simpl;
    try constructor; try assumption.
  now apply IH.
Qed.

Lemma update_related (boxes : list Box) (a : list nat) (todo : list nat) :
  forall cl' cl,
    scaled s cl' cl ->
    match update np_median_axis0 (map (scale s) boxes) a todo cl',
          update np_median_axis0 boxes a todo cl with
    | Ok c', Ok c => scaled s c' c
    | NonFinite, NonFinite => True
    | _, _ => False
    end.
Proof.
  induction todo as [|j rest IH]; intros cl' cl Hcl; simpl; [exact Hcl|].
  rewrite select_scale.
  pose proof (np_median_axis0_scale (select boxes (map (Nat.eqb j) a)))
    as Hm.
  destruct (np_median_axis0 (map (scale s) _)) as [b'| |],
    (np_median_axis0 (select boxes _)) as [b| |]; try contradiction;
    simpl; trivial.
  apply IH. now apply set_row_scaled.
Qed.

Lemma loop_related (boxes : list Box) (k : nat) (fuel : nat) :
  forall cl' cl last,
    scaled s cl' cl ->
    same_run s
      (kmeans_loop fuel (map (scale s) boxes) k np_median_axis0 cl' last)
      (kmeans_loop fuel boxes k np_median_axis0 cl last).
Proof.
  induction fuel as [|fuel IH]; intros cl' cl last Hcl;
    [split; [reflexivity | exact I]|].
  rewrite !kmeans_loop_S, (assign_related boxes k cl' cl Hcl).
  destruct (assign boxes k cl) as [a| |]; simpl;
    try (split; [reflexivity | simpl; trivial]).
  destruct (all_equal last a); simpl;
    [split; [reflexivity | exact Hcl]|].
  pose proof (update_related boxes a (seq 0 k) cl' cl Hcl) as Hu.
  destruct (update np_median_axis0 (map (scale s) boxes) a (seq 0 k) cl')
    as [c'| |],
    (update np_median_axis0 boxes a (seq 0 k) cl) as [c| |];
    try contradiction; simpl;
    try (split; [reflexivity | simpl; trivial]).
  destruct (IH c' c a Hu) as [Ha Ho]. split; [|exact Ho].
  simpl. now rewrite Ha.
Qed.

Lemma take_scale (boxes : list Box) (idx : list nat) :
  take (map (scale s) boxes) idx
  = match take boxes idx with
    | Ok cs => Ok (map (scale s) cs)
    | Raise e => Raise e
    | NonFinite => NonFinite
    end.
Proof.
  unfold take. induction idx as [|i idx IH]; simpl; [reflexivity|].
  rewrite nth_error_map. destruct (nth_error boxes i); simpl; [|reflexivity].
  rewrite IH. clear IH.
  destruct (mapM (fun i => match nth_error boxes i with
                           | Some b => Ok b
                           | None => Raise (IndexError "index out of bounds")
                           end) idx); reflexivity.
Qed.
End Scaling.


